(** * The wizard state machine of [src/index.tsx]

    A shallow embedding of the React component [WizardContextProvider] and
    of the hook [useWizardContext]: the reducer that owns the step registry
    and the current location, the effect that turns a change of the current
    location into one of the three host callbacks, and the context that the
    steps read.

    React itself is modelled by explicit state passing.
    - A render is a [Host] record: the props and the navigation location
      that the closures of that render capture.
    - [useReducer] is the pure function [reducer]; what it sends to
      [logger] is returned next to the new state.
    - [useEffect(..., [currentLocation])] is [afterRender]: the body of the
      effect runs when the location differs from the one of the previous
      render, and the host callbacks it calls are returned as a list of
      [HostCall]s, in call order.
    - [createContext] / [useContext] are a default value and the stack of
      enclosing providers. *)

From Stdlib Require Import ZArith String List Bool Lia.
From stdpp Require Import gmap strings list fin_maps.

Local Open Scope string_scope.
Local Open Scope Z_scope.

(** ** JavaScript values and built-ins used by the component *)
Module Js.

(** A value of TypeScript type [any]. [JError] stands for every object
    for which [instanceof Error] holds. *)
#[warnings="-register-all"]
Inductive any : Type :=
| JNull
| JUndefined
| JBoolean (b : bool)
| JNumber (n : Z)
| JString (s : string)
| JError (message : string)
| JObject (fields : list (string * any)).

(** [v instanceof Error], together with [v.message] when it holds. *)
Definition instanceofError (v : any) : option string :=
  match v with
  | JError message => Some message
  | _ => None
  end.

(** [!s] on a string: only the empty string is falsy. *)
Definition falsy (s : string) : bool :=
  match s with
  | EmptyString => true
  | String _ _ => false
  end.

(** [s.slice(n)]. *)
Fixpoint slice (n : nat) (s : string) : string :=
  match n, s with
  | O, _ => s
  | S _, EmptyString => EmptyString
  | S n', String _ s' => slice n' s'
  end.

(** [s.replace(pattern, replacement)] with a string pattern: the first
    occurrence only. No replacement pattern ([$&] and the like) occurs in
    the one call of the source, whose replacement is the empty string. *)
Fixpoint replace (pattern replacement s : string) : string :=
  if String.prefix pattern s
  then replacement ++ slice (String.length pattern) s
  else match s with
       | EmptyString => EmptyString
       | String c s' => String c (replace pattern replacement s')
       end.

(** [l.findIndex(f)]: the index of the first element that satisfies [f],
    [-1] when there is none. *)
Fixpoint findIndexFrom {A} (f : A -> bool) (l : list A) (i : Z) : Z :=
  match l with
  | [] => -1
  | x :: l' => if f x then i else findIndexFrom f l' (i + 1)
  end.

Definition findIndex {A} (f : A -> bool) (l : list A) : Z :=
  findIndexFrom f l 0.

(** [l[i]]: [None] is JavaScript's [undefined], for a negative index as
    for one past the end. *)
Definition at_index {A} (l : list A) (i : Z) : option A :=
  if i <? 0 then None else l !! Z.to_nat i.

(** *** Ordinary objects used as dictionaries

    An object of [any] is taken to be a plain one: [JObject fields] has
    the own, writable data properties [fields] and inherits from
    [Object.prototype]; an [Error] inherits from [Error.prototype] and
    through it from [Object.prototype]. *)

(** What an ordinary object inherits from. *)
Inductive Prototype : Type :=
| ObjectPrototype
| NullPrototype
| ValuePrototype (v : any).

(** An ordinary object: its own properties and its prototype. The object
    literal [{}] is [emptyObject]. *)
Record Dictionary := {
  own : gmap string any;
  prototype : Prototype
}.

Definition emptyObject : Dictionary :=
  {| own := ∅; prototype := ObjectPrototype |}.

(** Whether an assignment to ["__proto__"] that finds no own property and
    walks up from this prototype ends at the accessor of
    [Object.prototype]: not from the [null] prototype, and not through a
    plain object that has a data property of that name itself. *)
Definition reachesProtoSetter (p : Prototype) : bool :=
  match p with
  | ObjectPrototype => true
  | NullPrototype => false
  | ValuePrototype (JObject fields) =>
      negb (existsb (fun field => String.eqb (fst field) "__proto__") fields)
  | ValuePrototype _ => true
  end.

(** [o[k] = v] on an ordinary, extensible object. Every name but
    ["__proto__"] becomes or stays an own data property, whatever the
    prototype chain of plain objects holds. ["__proto__"], unless it is an
    own property already, goes to the setter of [Object.prototype] when
    the chain reaches it: the setter makes an object or [null] the new
    prototype, ignores any other value, and creates no own property. *)
Definition assign (o : Dictionary) (k : string) (v : any) : Dictionary :=
  if String.eqb k "__proto__"
     && negb (bool_decide (is_Some (own o !! k)))
     && reachesProtoSetter (prototype o)
  then match v with
       | JObject _ | JError _ =>
           {| own := own o; prototype := ValuePrototype v |}
       | JNull => {| own := own o; prototype := NullPrototype |}
       | _ => o
       end
  else {| own := <[k:=v]> (own o); prototype := prototype o |}.

End Js.
Import Js.

(** ** The component *)
Module Wizard.

Definition WIZARD_COMPLETE : string := "@Wizard/complete".
Definition WIZARD_CANCEL : string := "@Wizard/cancel".

Definition IntlKey : Type := string.
Definition MetaData : Type := list (string * string).

Record WizardStep := {
  key : string;
  state : any;
  nextButtonIntlKey : IntlKey
}.

Record WizardState := {
  steps : list WizardStep;
  currentLocation : string
}.

(** [ActionsUnion<typeof wizardAction>]: one constructor per member of
    the union. [unhandled] is a request whose [type] is none of the
    three of [enum WizardAction]; the type checker rules it out, the
    [default:] branch of the reducer receives it. *)
Inductive action : Type :=
| nextStep (payload : any)
| previousStep (payload : any)
| reset (payload : list string)
| unhandled (type : string) (payload : any).

(** [action.payload instanceof Error]. An array of strings is no
    [Error]. *)
Definition payloadError (a : action) : option string :=
  match a with
  | nextStep payload | previousStep payload | unhandled _ payload =>
      instanceofError payload
  | reset _ => None
  end.

(** [WizardCompleteState]: an object used as a dictionary. *)
Abbreviation WizardCompleteState := Dictionary.

(** The three callbacks of the props, as the calls the host receives. *)
Inductive HostCall : Type :=
| onWizardComplete (completeState : WizardCompleteState)
| onWizardCancel
| onWizardStepChanged (location : string) (prevStepState : any).

(** What one render of [WizardContextProvider] closes over: its props
    (the callbacks apart, which are [HostCall]) and the result of
    [useNavigation()]. *)
Record Host := {
  wizardSteps : list string;
  nextIntlKey : IntlKey;
  completeIntlKey : IntlKey;
  meta : option MetaData;
  pathname : string;
  matchUrl : string
}.

Inductive LogEntry : Type :=
| logger_error (message : string) (a : action)
| logger_warn (message : string) (a : action).

(** [{ ...step, state: payload }] *)
Definition withState (step : WizardStep) (payload : any) : WizardStep :=
  {| key := key step; state := payload;
     nextButtonIntlKey := nextButtonIntlKey step |}.

(** The [state.steps.map((step, index) => ...)] of both navigation
    cases. *)
Definition storeState (currentStepIndex : Z) (payload : any)
    (l : list WizardStep) : list WizardStep :=
  imap (fun index step =>
          if negb (Z.of_nat index =? currentStepIndex)
          then step
          else withState step payload) l.

(** The [action.payload.map((key, index) => ...)] of the reset case. *)
Definition buildSteps (nextIntlKey completeIntlKey : IntlKey)
    (payload : list string) : list WizardStep :=
  let stepCount := length payload in
  imap (fun index k =>
          {| key := k; state := JNull;
             nextButtonIntlKey :=
               if Nat.eqb (index + 1) stepCount
               then completeIntlKey else nextIntlKey |}) payload.

(** [completeState[step.key] = step.state] for each step in turn, from
    the empty object. *)
Definition collectState (l : list WizardStep) : WizardCompleteState :=
  foldl (fun completeState step => assign completeState (key step) (state step))
        emptyObject l.

(** The result of code that may throw. *)
Inductive Outcome (A : Type) : Type :=
| returns (a : A)
| throws (message : string).
Arguments returns {A} a.
Arguments throws {A} message.

Section Render.
Variable h : Host.

Definition getCurrentStepName : string :=
  replace (matchUrl h ++ "/") "" (pathname h).

Definition getCurrentStepIndex (stepName : option string) : Z :=
  let currentStepName :=
    match stepName with
    | Some name => if falsy name then getCurrentStepName else name
    | None => getCurrentStepName
    end in
  findIndex (fun current => String.eqb currentStepName current) (wizardSteps h).

(** In both functions below the index read is inside [wizardSteps]
    (lemmas [getNextPage_in_range] and [getPreviousPage_in_range]), so
    the empty-string default is never returned. *)
Definition getNextPage : string :=
  let nextStepIndex := getCurrentStepIndex None + 1 in
  if nextStepIndex >=? Z.of_nat (length (wizardSteps h))
  then WIZARD_COMPLETE
  else default "" (at_index (wizardSteps h) nextStepIndex).

Definition getPreviousPage : string :=
  let previousStepIndex := getCurrentStepIndex None - 1 in
  if previousStepIndex <? 0
  then WIZARD_CANCEL
  else default "" (at_index (wizardSteps h) previousStepIndex).

(** The reducer given to [useReducer], with the log lines it writes. *)
Definition reducerLog (state : WizardState) (a : action)
    : WizardState * list LogEntry :=
  match payloadError a with
  | Some message => (state, [logger_error message a])
  | None =>
      match a with
      | previousStep payload =>
          let currentStepIndex := getCurrentStepIndex None in
          let newSteps := storeState currentStepIndex payload (steps state) in
          ({| steps := newSteps; currentLocation := getPreviousPage |}, [])
      | nextStep payload =>
          let currentStepIndex := getCurrentStepIndex None in
          let newSteps := storeState currentStepIndex payload (steps state) in
          ({| steps := newSteps; currentLocation := getNextPage |}, [])
      | reset payload =>
          let stepCount := length payload in
          if Nat.eqb stepCount 0
          then ({| steps := []; currentLocation := "" |}, [])
          else
            let nextSteps :=
              buildSteps (nextIntlKey h) (completeIntlKey h) payload in
            (* [nextSteps[0]] exists: [nextSteps] is as long as the
               payload, which is not empty here *)
            ({| steps := nextSteps;
                currentLocation := default "" (key <$> at_index nextSteps 0) |},
             [])
      | unhandled _ _ =>
          (state, [logger_warn "Unhandeled message type" a])
      end
  end.

Definition reducer (state : WizardState) (a : action) : WizardState :=
  fst (reducerLog state a).

(** The body of the effect on [currentLocation], run against the state
    of the render it belongs to. *)
Definition locationEffect (st : WizardState) : list HostCall :=
  if falsy (currentLocation st) then []
  else if String.eqb (currentLocation st) WIZARD_COMPLETE
  then [onWizardComplete (collectState (steps st))]
  else if String.eqb (currentLocation st) WIZARD_CANCEL
  then [onWizardCancel]
  else [onWizardStepChanged (currentLocation st)
          (* [steps[getCurrentStepIndex()]?.state] *)
          match at_index (steps st) (getCurrentStepIndex None) with
          | Some step => state step
          | None => JUndefined
          end].

(** [useEffect(body, [currentLocation])] after a render with state [st]
    that follows a render with state [prev]. *)
Definition afterRender (prev st : WizardState) : list HostCall :=
  if String.eqb (currentLocation prev) (currentLocation st)
  then []
  else locationEffect st.

(** One dispatched action: the reducer runs, the component renders with
    the new state and its effect runs. *)
Definition dispatch (st : WizardState) (a : action)
    : WizardState * list HostCall :=
  let st' := reducer st a in
  (st', afterRender st st').

(** The value handed to [WizardContext.Provider]. The three functions
    [onNext], [onBack] and [onCancel] are given below as what calling them
    does; the getter [previousState] is given as what reading it does at
    the render. *)
Record WizardContextProps := {
  ctx_previousState : Outcome any;
  ctx_meta : MetaData;
  ctx_nextButtonIntlKey : IntlKey
}.

Definition onNext (st : WizardState) (payload : any) :=
  dispatch st (nextStep payload).

Definition onBack (st : WizardState) (payload : any) :=
  dispatch st (previousStep payload).

Definition onCancel : list HostCall := [onWizardCancel].

Definition previousState (st : WizardState) : Outcome any :=
  let stepName := getCurrentStepName in
  let stepIndex := getCurrentStepIndex (Some stepName) in
  if stepIndex =? -1 then returns JNull
  else match at_index (steps st) stepIndex with
       | Some step => returns (state step)
       | None =>
           (* [steps[stepIndex]] is [undefined] and [.state] is read off it *)
           throws "TypeError"
       end.

(** What the component renders: [None] is the [LoaderOrErrorPage]
    placeholder, [Some value] the provider with its children. *)
Definition render (st : WizardState) : option WizardContextProps :=
  match filter (fun step => key step = currentLocation st) (steps st) with
  | [] => None
  | currentStep :: _ =>
      Some {| ctx_previousState := previousState st;
              ctx_meta := default [] (meta h);
              ctx_nextButtonIntlKey := nextButtonIntlKey currentStep |}
  end.

End Render.

(** The initial state given to [useReducer]. *)
Definition initialState : WizardState :=
  {| steps := []; currentLocation := "" |}.

(** *** The context *)

(** What [useContext(WizardContext)] can evaluate to. *)
Inductive ContextValue : Type :=
| ctx_null
| ctx_empty_object
| ctx_props (value : WizardContextProps).

(** [createContext<WizardContextProps>({} as any)]: the default value. *)
Definition WizardContext_default : ContextValue := ctx_empty_object.

(** [useContext(WizardContext)] under the given enclosing providers,
    innermost first: the value of the nearest one, the default of
    [createContext] when there is none. *)
Definition useContext (providers : list WizardContextProps) : ContextValue :=
  match providers with
  | value :: _ => ctx_props value
  | [] => WizardContext_default
  end.

Definition useWizardContext (providers : list WizardContextProps)
    : Outcome ContextValue :=
  let context := useContext providers in
  match context with
  | ctx_null =>
      throws "useWizardContext must be used within an WizardContextProvider"
  | _ => returns context
  end.

End Wizard.
Import Wizard.

(** ** Scenarios *)

Definition host (keys : list string) (active : string) : Host :=
  {| wizardSteps := keys; nextIntlKey := "Next"; completeIntlKey := "Finish";
     meta := None; pathname := "/wizard/" ++ active; matchUrl := "/wizard" |}.

Definition profileSteps : list string := ["profile"; "payment"; "confirm"].

Definition abSteps : list string := ["a"; "b"].

(** The state once the effect on [wizardSteps] has dispatched its first
    [reset]. *)
Definition started (h : Host) : WizardState :=
  reducer h initialState (reset (wizardSteps h)).

(** ** Runs of the machine *)

(** The current location is empty, a sentinel, or the key of a step of
    the registry. *)
Definition danglingFree (st : WizardState) : Prop :=
  currentLocation st = "" \/
  currentLocation st = WIZARD_COMPLETE \/
  currentLocation st = WIZARD_CANCEL \/
  currentLocation st ∈ key <$> steps st.

(** The states that the reducer can produce from the initial state. Each
    action is processed by the reducer of some render, whose props and
    location are those of that render. *)
Inductive reachable : WizardState -> Prop :=
| reachable_initial : reachable initialState
| reachable_advance h st payload :
    reachable st -> reachable (reducer h st (nextStep payload))
| reachable_retreat h st payload :
    reachable st -> reachable (reducer h st (previousStep payload))
| reachable_reinitialize h st keys :
    reachable st -> reachable (reducer h st (reset keys)).

(** An Advance or a Retreat is processed by a render whose declared step
    list is the list of keys of the registry. *)
Definition processedInSync (h : Host) (st : WizardState) (a : action) : Prop :=
  match a with
  | nextStep _ | previousStep _ => key <$> steps st = wizardSteps h
  | reset _ | unhandled _ _ => True
  end.

Inductive syncReachable : WizardState -> Prop :=
| syncReachable_initial : syncReachable initialState
| syncReachable_step h st a :
    syncReachable st -> processedInSync h st a ->
    syncReachable (reducer h st a).

(** [i] is the externally observed active index: the place of the first
    declared key equal to the step name that the navigation location
    gives, [-1] when no declared key is equal to it. *)
Definition activeIndex (h : Host) (i : Z) : Prop :=
  (i = -1 /\ getCurrentStepName h ∉ wizardSteps h) \/
  (0 <= i /\
   wizardSteps h !! Z.to_nat i = Some (getCurrentStepName h) /\
   forall j, (j < Z.to_nat i)%nat ->
     wizardSteps h !! j <> Some (getCurrentStepName h)).

(** The call of the step-changed callback as the specification words it:
    the new location key with the state that the registry held for the
    step of that key before the transition. *)
Definition specStepChanged (before : WizardState) (location : string) : HostCall :=
  onWizardStepChanged location
    (default JNull
       (state <$> head (filter (fun step => key step = location) (steps before)))).

(** A state out of reach of the component as it is wired, and in reach of
    the reducer: an Advance processed before the first Reinitialize. *)
Definition dangling : WizardState :=
  reducer (host abSteps "a") initialState (nextStep JNull).

(** Another one: the declared list changes from a, b to a, c and the step
    at a advances before the registry is rebuilt. *)
Definition danglingAfterListChange : WizardState :=
  reducer (host ["a"; "c"] "a") (started (host abSteps "a")) (nextStep JNull).

(** ** The host and the user *)

(** What the host does on [onWizardStepChanged], as the comment on that
    prop asks: navigate to [`${match.url}/${location}`]. The props stay
    as they are. *)
Definition navigate (h : Host) (location : string) : Host :=
  {| wizardSteps := wizardSteps h; nextIntlKey := nextIntlKey h;
     completeIntlKey := completeIntlKey h; meta := meta h;
     pathname := matchUrl h ++ "/" ++ location; matchUrl := matchUrl h |}.

(** [pattern] is a substring of [s]. *)
Definition occursIn (pattern s : string) : Prop :=
  exists a b, s = a ++ pattern ++ b.

(** A user who visits the given steps in turn and calls [onNext] with the
    given state on each; the calls the host receives are collected in
    order. *)
Fixpoint walk (h : Host) (st : WizardState) (visits : list (string * any))
    : WizardState * list HostCall :=
  match visits with
  | [] => (st, [])
  | (location, payload) :: visits' =>
      let (st', calls) := onNext (navigate h location) st payload in
      let (st'', calls') := walk h st' visits' in
      (st'', (calls ++ calls')%list)
  end.

(** The registry that [reset] builds for [keys], with the given states
    stored in its first steps. *)
Definition registryWith (next complete : IntlKey) (keys : list string)
    (states : list any) : list WizardStep :=
  imap (fun index step =>
          withState step (default JNull (states !! index)))
       (buildSteps next complete keys).

(** The reducer over a sequence of dispatched actions, each processed by
    the render it reaches. *)
Definition runs (st : WizardState) (trace : list (Host * action)) : WizardState :=
  foldl (fun st '(h, a) => reducer h st a) st trace.

(** A transition of the trace that can write to the registry step at
    index [i]: a reset, or a request processed while [i] is the active
    index. *)
Definition touches (i : Z) (ha : Host * action) : Prop :=
  match snd ha with
  | reset _ => True
  | _ => getCurrentStepIndex (fst ha) None = i
  end.

(** ** Built-ins *)

Section FindIndex.
Context {A : Type} (f : A -> bool).

Lemma findIndexFrom_range (l : list A) (i : Z) :
  0 <= i ->
  findIndexFrom f l i = -1 \/
  i <= findIndexFrom f l i < i + Z.of_nat (length l).
Proof.
  revert i. induction l as [|x l IH]; intros i Hi; simpl; [by left|].
  destruct (f x); [right; lia|].
  destruct (IH (i + 1)) as [->|?]; [lia|by left|right; lia].
Qed.

Lemma findIndex_range (l : list A) :
  -1 <= findIndex f l < Z.of_nat (length l).
Proof.
  unfold findIndex. destruct (findIndexFrom_range l 0); lia.
Qed.

Lemma findIndex_nil : findIndex f [] = -1.
Proof. reflexivity. Qed.

End FindIndex.

Lemma findIndexFrom_first {A} (f : A -> bool) (l : list A) (i : Z) :
  0 <= i ->
  (findIndexFrom f l i = -1 /\ forall x, x ∈ l -> f x = false) \/
  (i <= findIndexFrom f l i /\
   exists x, l !! Z.to_nat (findIndexFrom f l i - i) = Some x /\ f x = true /\
     forall j y, (j < Z.to_nat (findIndexFrom f l i - i))%nat ->
       l !! j = Some y -> f y = false).
Proof.
  revert i. induction l as [|x l IH]; intros i Hi; simpl.
  - left. split; [done|]. by intros x ?%not_elem_of_nil.
  - destruct (f x) eqn:Hx.
    + right. split; [lia|]. exists x. rewrite Z.sub_diag. simpl.
      split; [done|]. split; [done|]. intros; lia.
    + destruct (IH (i + 1)) as [[-> Hall] | (Hr & y & Hy & Hfy & Hmin)]; [lia| |].
      * left. split; [done|].
        intros z [->|Hz]%elem_of_cons; [done|by apply Hall].
      * right. split; [lia|]. exists y.
        replace (Z.to_nat (findIndexFrom f l (i + 1) - i))
          with (S (Z.to_nat (findIndexFrom f l (i + 1) - (i + 1)))) by lia.
        split; [done|]. split; [done|].
        intros [|j] z Hj Hz; simpl in Hz; [by simplify_eq|].
        eapply Hmin; [|done]. lia.
Qed.

(** The index of the first key equal to [name], [-1] when no key is. *)
Lemma findIndex_key (name : string) (keys : list string) :
  let i := findIndex (fun current => String.eqb name current) keys in
  (i = -1 /\ name ∉ keys) \/
  (0 <= i /\ keys !! Z.to_nat i = Some name /\
   forall j, (j < Z.to_nat i)%nat -> keys !! j <> Some name).
Proof.
  intros i. subst i. unfold findIndex.
  destruct (findIndexFrom_first (fun current => String.eqb name current) keys 0)
    as [[-> Hall] | (Hr & k & Hk & Heq & Hmin)]; [lia| |].
  - left. split; [done|]. intros Hin. apply Hall in Hin.
    by rewrite String.eqb_refl in Hin.
  - right. rewrite Z.sub_0_r in *. apply String.eqb_eq in Heq as <-.
    split; [done|]. split; [done|]. intros j Hj Hkj.
    apply (Hmin j name) in Hkj; [|done]. by rewrite String.eqb_refl in Hkj.
Qed.

Lemma findIndex_key_NoDup (name : string) (keys : list string) (n : nat) :
  NoDup keys -> keys !! n = Some name ->
  findIndex (fun current => String.eqb name current) keys = Z.of_nat n.
Proof.
  intros Hnodup Hn.
  destruct (findIndex_key name keys) as [[_ Hnot] | (Hi & Hfound & _)].
  - destruct Hnot. by eapply list_elem_of_lookup_2.
  - pose proof (NoDup_lookup _ _ _ _ Hnodup Hn Hfound). lia.
Qed.

Lemma at_index_lookup {A} (l : list A) (i : Z) :
  0 <= i -> at_index l i = l !! Z.to_nat i.
Proof.
  intros Hi. unfold at_index.
  destruct (Z.ltb_spec i 0); [lia|done].
Qed.

Lemma at_index_negative {A} (l : list A) (i : Z) :
  i < 0 -> at_index l i = None.
Proof.
  intros Hi. unfold at_index.
  destruct (Z.ltb_spec i 0); [done|lia].
Qed.

Lemma at_index_is_Some {A} (l : list A) (i : Z) :
  0 <= i < Z.of_nat (length l) -> is_Some (at_index l i).
Proof.
  intros Hi. rewrite at_index_lookup by lia.
  apply lookup_lt_is_Some. lia.
Qed.

Lemma at_index_fmap {A B} (g : A -> B) (l : list A) (i : Z) :
  at_index (g <$> l) i = g <$> at_index l i.
Proof.
  unfold at_index. destruct (i <? 0); [done|apply list_lookup_fmap].
Qed.

Lemma falsy_empty (s : string) : falsy s = true <-> s = "".
Proof. destruct s; simpl; split; congruence. Qed.

(** ** The registry *)

Lemma storeState_length i payload l :
  length (storeState i payload l) = length l.
Proof. apply length_imap. Qed.

Lemma storeState_lookup i payload l n :
  storeState i payload l !! n =
  (fun step => if bool_decide (Z.of_nat n = i)
               then withState step payload else step) <$> l !! n.
Proof.
  unfold storeState. rewrite list_lookup_imap.
  destruct (l !! n); simpl; [|done].
  case_bool_decide as Hn.
  - by rewrite (proj2 (Z.eqb_eq _ _) Hn).
  - by rewrite (proj2 (Z.eqb_neq _ _) Hn).
Qed.

Lemma storeState_keys i payload l :
  key <$> storeState i payload l = key <$> l.
Proof.
  apply list_eq; intros n.
  rewrite !list_lookup_fmap, storeState_lookup.
  destruct (l !! n); simpl; [|done].
  by case_bool_decide.
Qed.

Lemma storeState_not_found payload l :
  storeState (-1) payload l = l.
Proof.
  apply list_eq; intros n. rewrite storeState_lookup.
  destruct (l !! n); simpl; [|done].
  case_bool_decide; [lia|done].
Qed.

Lemma buildSteps_length next complete keys :
  length (buildSteps next complete keys) = length keys.
Proof. apply length_imap. Qed.

Lemma buildSteps_lookup next complete keys n :
  buildSteps next complete keys !! n =
  (fun k => {| key := k; state := JNull;
               nextButtonIntlKey :=
                 if bool_decide (S n = length keys) then complete else next |})
    <$> keys !! n.
Proof.
  unfold buildSteps. rewrite list_lookup_imap.
  destruct (keys !! n); simpl; [|done].
  replace (n + 1)%nat with (S n) by lia.
  case_bool_decide as Hn.
  - by rewrite (proj2 (Nat.eqb_eq _ _) Hn).
  - by rewrite (proj2 (Nat.eqb_neq _ _) Hn).
Qed.

Lemma buildSteps_keys next complete keys :
  key <$> buildSteps next complete keys = keys.
Proof.
  apply list_eq; intros n.
  rewrite list_lookup_fmap, buildSteps_lookup.
  by destruct (keys !! n).
Qed.

(** ** The reducer, case by case *)

Section ReducerCases.
Variable h : Host.

Lemma reducer_nextStep st payload :
  instanceofError payload = None ->
  reducer h st (nextStep payload) =
  {| steps := storeState (getCurrentStepIndex h None) payload (steps st);
     currentLocation := getNextPage h |}.
Proof. intros Hp. unfold reducer, reducerLog. simpl. by rewrite Hp. Qed.

Lemma reducer_previousStep st payload :
  instanceofError payload = None ->
  reducer h st (previousStep payload) =
  {| steps := storeState (getCurrentStepIndex h None) payload (steps st);
     currentLocation := getPreviousPage h |}.
Proof. intros Hp. unfold reducer, reducerLog. simpl. by rewrite Hp. Qed.

Lemma reducer_navigation_steps st a payload :
  a = nextStep payload \/ a = previousStep payload ->
  instanceofError payload = None ->
  steps (reducer h st a) =
  storeState (getCurrentStepIndex h None) payload (steps st).
Proof.
  intros [-> | ->] Hp;
    [rewrite reducer_nextStep by done|rewrite reducer_previousStep by done];
    done.
Qed.

Lemma reducer_reset_nil st :
  reducer h st (reset []) = {| steps := []; currentLocation := "" |}.
Proof. reflexivity. Qed.

Lemma reducer_reset_cons st k keys :
  reducer h st (reset (k :: keys)) =
  {| steps := buildSteps (nextIntlKey h) (completeIntlKey h) (k :: keys);
     currentLocation := k |}.
Proof. reflexivity. Qed.

Lemma reducer_rejected st a :
  is_Some (payloadError a) -> reducer h st a = st.
Proof. intros [m Hm]. unfold reducer, reducerLog. by rewrite Hm. Qed.

Lemma reducer_unhandled st type payload :
  reducer h st (unhandled type payload) = st.
Proof.
  unfold reducer, reducerLog. simpl. by destruct (instanceofError payload).
Qed.

Lemma getCurrentStepIndex_range :
  -1 <= getCurrentStepIndex h None < Z.of_nat (length (wizardSteps h)).
Proof. apply findIndex_range. Qed.

(** The lookup of the active index finds the externally observed active
    index, and nothing else is one. *)
Lemma activeIndex_getCurrentStepIndex : activeIndex h (getCurrentStepIndex h None).
Proof. apply findIndex_key. Qed.

Lemma activeIndex_unique i : activeIndex h i -> getCurrentStepIndex h None = i.
Proof.
  intros Hi.
  destruct activeIndex_getCurrentStepIndex as [[-> Hnot] | (Hr & Hfound & Hfirst)];
    destruct Hi as [[-> Hnot'] | (Hi & Hfound' & Hfirst')]; try done.
  - destruct Hnot. by eapply list_elem_of_lookup_2.
  - destruct Hnot'. by eapply list_elem_of_lookup_2.
  - destruct (Nat.lt_trichotomy (Z.to_nat (getCurrentStepIndex h None)) (Z.to_nat i))
      as [Hlt | [Heq | Hgt]]; [by destruct (Hfirst' _ Hlt)|lia|by destruct (Hfirst _ Hgt)].
Qed.

(** The reads of [wizardSteps] in [getNextPage] and [getPreviousPage]
    never fall outside the array. *)
Lemma getNextPage_in_range :
  getNextPage h = WIZARD_COMPLETE \/
  at_index (wizardSteps h) (getCurrentStepIndex h None + 1) = Some (getNextPage h).
Proof.
  unfold getNextPage. pose proof getCurrentStepIndex_range as Hr.
  destruct (Z.geb_spec (getCurrentStepIndex h None + 1)
              (Z.of_nat (length (wizardSteps h)))) as [|Hlt]; [by left|right].
  destruct (at_index_is_Some (wizardSteps h) (getCurrentStepIndex h None + 1))
    as [k ->]; [lia|done].
Qed.

Lemma getPreviousPage_in_range :
  getPreviousPage h = WIZARD_CANCEL \/
  at_index (wizardSteps h) (getCurrentStepIndex h None - 1) = Some (getPreviousPage h).
Proof.
  unfold getPreviousPage. pose proof getCurrentStepIndex_range as Hr.
  destruct (Z.ltb_spec (getCurrentStepIndex h None - 1) 0) as [|Hge];
    [by left|right].
  destruct (at_index_is_Some (wizardSteps h) (getCurrentStepIndex h None - 1))
    as [k ->]; [lia|done].
Qed.

End ReducerCases.

(** ** Reinitialize *)

(** C4. Reinitialize with a non-empty list of keys gives a registry of the
    same length, with the keys in the same order, every state [null], the
    label [completeIntlKey] on the last step and [nextIntlKey] on every
    other one, and the first key as current location; with the empty list
    it gives the empty registry and the empty location. *)
Theorem reinitialize_registry (h : Host) (st : WizardState) (keys : list string) :
  let st' := reducer h st (reset keys) in
  (keys <> [] ->
     length (steps st') = length keys /\
     key <$> steps st' = keys /\
     (forall step, step ∈ steps st' -> state step = JNull) /\
     (forall n step, steps st' !! n = Some step ->
        nextButtonIntlKey step =
        if bool_decide (S n = length keys)
        then completeIntlKey h else nextIntlKey h) /\
     head keys = Some (currentLocation st')) /\
  (keys = [] -> steps st' = [] /\ currentLocation st' = "").
Proof.
  intros st'. subst st'. destruct keys as [|k keys]; (split; [|done]); [done|].
  intros _. rewrite reducer_reset_cons. simpl steps. simpl currentLocation.
  split; [apply buildSteps_length|].
  split; [apply buildSteps_keys|].
  split; [|split; [|done]].
  - intros step [n Hn]%list_elem_of_lookup.
    rewrite buildSteps_lookup in Hn.
    destruct ((k :: keys) !! n); simplify_eq/=; done.
  - intros n step Hn. rewrite buildSteps_lookup in Hn.
    destruct ((k :: keys) !! n); simplify_eq/=; done.
Qed.

Lemma reinitialize_registry_witness :
  profileSteps <> [] /\
  key <$> steps (reducer (host profileSteps "profile") initialState
                   (reset profileSteps)) = profileSteps /\
  currentLocation (reducer (host profileSteps "profile") initialState
                     (reset profileSteps)) = "profile".
Proof.
  assert (Hne : profileSteps <> []) by discriminate.
  split; [exact Hne|].
  destruct (proj1 (reinitialize_registry (host profileSteps "profile")
                     initialState profileSteps) Hne)
    as (_ & Hkeys & _ & _ & Hhead).
  split; [exact Hkeys|].
  apply (inj Some). symmetry. exact Hhead.
Defined.

(** ** Advance and Retreat *)

(** C5, as the code has it. With a registry of [N] steps whose keys are
    the declared step list, an Advance with a state payload fired while
    the externally observed active step has index [i], [0 <= i < N - 1],
    sets the current location to the key of the step at index [i + 1];
    fired at index [N - 1] it sets the current location to the COMPLETE
    sentinel. *)
Theorem advance_location (h : Host) (st : WizardState) (payload : any) (i : Z) :
  instanceofError payload = None ->
  key <$> steps st = wizardSteps h ->
  activeIndex h i ->
  let N := Z.of_nat (length (steps st)) in
  let st' := reducer h st (nextStep payload) in
  (0 <= i < N - 1 ->
     key <$> at_index (steps st) (i + 1) = Some (currentLocation st')) /\
  (i = N - 1 -> currentLocation st' = WIZARD_COMPLETE).
Proof.
  intros Hp Hsync Hi%activeIndex_unique N st'. subst st'.
  rewrite reducer_nextStep by done.
  simpl currentLocation. unfold getNextPage. rewrite Hi, <- Hsync.
  rewrite length_fmap. fold N. rewrite at_index_fmap.
  split; intros Hrange.
  - destruct (Z.geb_spec (i + 1) N); [lia|].
    destruct (at_index_is_Some (steps st) (i + 1)) as [step ->]; [lia|done].
  - destruct (Z.geb_spec (i + 1) N); [done|lia].
Qed.

Lemma advance_location_witness :
  let atPayment := host profileSteps "payment" in
  let atConfirm := host profileSteps "confirm" in
  key <$> steps (started atPayment) = wizardSteps atPayment /\
  activeIndex atPayment 1 /\
  activeIndex atConfirm 2 /\
  currentLocation (reducer atPayment (started atPayment) (nextStep (JString "x")))
    = "confirm" /\
  currentLocation (reducer atConfirm (started atPayment) (nextStep (JString "x")))
    = WIZARD_COMPLETE.
Proof.
  intros atPayment atConfirm.
  assert (Hp : instanceofError (JString "x") = None) by reflexivity.
  assert (Hsync : key <$> steps (started atPayment) = wizardSteps atPayment)
    by reflexivity.
  assert (H1 : activeIndex atPayment 1).
  { right. split; [lia|]. split; [reflexivity|].
    intros [|j] Hj; [discriminate|simpl in Hj; lia]. }
  assert (H2 : activeIndex atConfirm 2).
  { right. split; [lia|]. split; [reflexivity|].
    intros [|[|j]] Hj; [discriminate|discriminate|simpl in Hj; lia]. }
  split; [exact Hsync|]. split; [exact H1|]. split; [exact H2|]. split.
  - assert (Hr : 0 <= 1 < Z.of_nat (length (steps (started atPayment))) - 1)
      by (vm_compute; split; congruence).
    pose proof (proj1 (advance_location atPayment (started atPayment)
                         (JString "x") 1 Hp Hsync H1) Hr) as Hloc.
    apply (inj Some). symmetry. exact Hloc.
  - exact (proj2 (advance_location atConfirm (started atPayment)
                    (JString "x") 2 Hp Hsync H2) eq_refl).
Defined.

(** C5, as the claim words it, fails when the registry was built for
    another list than the one declared now: over the registry a, b and the
    declared list a, c an Advance at a, index [0] of [2], sets the current
    location to c, which is not the key b of the registry step at index
    [1]. *)
Lemma advance_location_counterexample :
  let st := started (host abSteps "a") in
  let h := host ["a"; "c"] "a" in
  activeIndex h 0 /\
  0 <= 0 < Z.of_nat (length (steps st)) - 1 /\
  key <$> at_index (steps st) (0 + 1) = Some "b" /\
  currentLocation (reducer h st (nextStep JNull)) = "c" /\
  key <$> at_index (steps st) (0 + 1)
    <> Some (currentLocation (reducer h st (nextStep JNull))).
Proof.
  intros st h. split.
  { right. split; [lia|]. split; [reflexivity|]. intros j Hj. simpl in Hj. lia. }
  split; [vm_compute; split; congruence|].
  split; [reflexivity|]. split; [reflexivity|]. vm_compute. discriminate.
Qed.

(** ** The effect on the current location *)

Section Effect.
Variable h : Host.

Lemma afterRender_unchanged st : afterRender h st st = [].
Proof. unfold afterRender. by rewrite String.eqb_refl. Qed.

Lemma afterRender_changed prev st :
  currentLocation prev <> currentLocation st ->
  afterRender h prev st = locationEffect h st.
Proof.
  intros Hne. unfold afterRender.
  by rewrite (proj2 (String.eqb_neq _ _) Hne).
Qed.

Lemma locationEffect_complete st :
  currentLocation st = WIZARD_COMPLETE ->
  locationEffect h st = [onWizardComplete (collectState (steps st))].
Proof. intros Hc. unfold locationEffect. by rewrite Hc. Qed.

Lemma locationEffect_cancel st :
  currentLocation st = WIZARD_CANCEL ->
  locationEffect h st = [onWizardCancel].
Proof. intros Hc. unfold locationEffect. by rewrite Hc. Qed.

Lemma locationEffect_step st :
  currentLocation st <> "" ->
  currentLocation st <> WIZARD_COMPLETE ->
  currentLocation st <> WIZARD_CANCEL ->
  locationEffect h st =
  [onWizardStepChanged (currentLocation st)
     match at_index (steps st) (getCurrentStepIndex h None) with
     | Some step => state step
     | None => JUndefined
     end].
Proof.
  intros He Hc Hx. unfold locationEffect.
  destruct (falsy (currentLocation st)) eqn:Hf;
    [by apply falsy_empty in Hf|].
  rewrite (proj2 (String.eqb_neq _ _) Hc).
  by rewrite (proj2 (String.eqb_neq _ _) Hx).
Qed.

End Effect.

(** C6, as the code has it. With a registry of [N] steps whose keys are
    the declared step list, a Retreat with a state payload fired while the
    externally observed active step has index [i], [0 < i < N], sets the
    current location to the key of the step at index [i - 1]; fired at
    index [0] it sets the current location to the CANCEL sentinel, and,
    the machine not being at that sentinel already, this change of
    location makes the component call the cancellation callback once and
    no other callback. *)
Theorem retreat_location (h : Host) (st : WizardState) (payload : any) (i : Z) :
  instanceofError payload = None ->
  key <$> steps st = wizardSteps h ->
  activeIndex h i ->
  let N := Z.of_nat (length (steps st)) in
  let st' := reducer h st (previousStep payload) in
  (0 < i < N ->
     key <$> at_index (steps st) (i - 1) = Some (currentLocation st')) /\
  (i = 0 ->
     currentLocation st' = WIZARD_CANCEL /\
     (currentLocation st <> WIZARD_CANCEL ->
      snd (dispatch h st (previousStep payload)) = [onWizardCancel])).
Proof.
  intros Hp Hsync Hi%activeIndex_unique N st'. subst st'. unfold dispatch.
  rewrite reducer_previousStep by done.
  simpl currentLocation. unfold getPreviousPage. rewrite Hi.
  split; intros Hrange.
  - destruct (Z.ltb_spec (i - 1) 0); [lia|].
    rewrite <- Hsync, at_index_fmap.
    destruct (at_index_is_Some (steps st) (i - 1)) as [step ->]; [lia|done].
  - rewrite Hrange. simpl. split; [done|]. intros Hne.
    rewrite afterRender_changed by done.
    by apply locationEffect_cancel.
Qed.

Lemma retreat_location_witness :
  let atA := host abSteps "a" in
  let atB := host abSteps "b" in
  key <$> steps (started atA) = wizardSteps atA /\
  activeIndex atB 1 /\
  activeIndex atA 0 /\
  currentLocation (started atA) <> WIZARD_CANCEL /\
  currentLocation (reducer atB (started atA) (previousStep (JString "x"))) = "a" /\
  snd (dispatch atA (started atA) (previousStep (JString "x"))) = [onWizardCancel].
Proof.
  intros atA atB.
  assert (Hp : instanceofError (JString "x") = None) by reflexivity.
  assert (Hsync : key <$> steps (started atA) = wizardSteps atA) by reflexivity.
  assert (H1 : activeIndex atB 1).
  { right. split; [lia|]. split; [reflexivity|].
    intros [|j] Hj; [discriminate|simpl in Hj; lia]. }
  assert (H0 : activeIndex atA 0).
  { right. split; [lia|]. split; [reflexivity|]. intros j Hj. simpl in Hj. lia. }
  assert (Hne : currentLocation (started atA) <> WIZARD_CANCEL) by discriminate.
  split; [exact Hsync|]. split; [exact H1|]. split; [exact H0|].
  split; [exact Hne|]. split.
  - assert (Hr : 0 < 1 < Z.of_nat (length (steps (started atA))))
      by (vm_compute; split; congruence).
    pose proof (proj1 (retreat_location atB (started atA) (JString "x") 1
                         Hp Hsync H1) Hr) as Hloc.
    apply (inj Some). symmetry. exact Hloc.
  - exact (proj2 (proj2 (retreat_location atA (started atA) (JString "x") 0
                           Hp Hsync H0) eq_refl) Hne).
Defined.

(** C6, as the claim words it, fails in two ways. Over the registry a, b
    and the declared list c, b a Retreat at b, index [1] of [2], sets the
    current location to c, which is not the key a of the registry step at
    index [0]. And a Retreat at index [0] processed when the current
    location is the CANCEL sentinel already leaves the location as it is,
    so that no callback is called. *)
Lemma retreat_location_counterexample :
  (let st := started (host abSteps "b") in
   let h := host ["c"; "b"] "b" in
   activeIndex h 1 /\
   0 < 1 < Z.of_nat (length (steps st)) /\
   key <$> at_index (steps st) (1 - 1) = Some "a" /\
   currentLocation (reducer h st (previousStep JNull)) = "c" /\
   key <$> at_index (steps st) (1 - 1)
     <> Some (currentLocation (reducer h st (previousStep JNull)))) /\
  (let h := host abSteps "a" in
   let cancelled := reducer h (started h) (previousStep JNull) in
   activeIndex h 0 /\
   key <$> steps cancelled = wizardSteps h /\
   currentLocation cancelled = WIZARD_CANCEL /\
   dispatch h cancelled (previousStep JNull) = (cancelled, [])).
Proof.
  split.
  - intros st h. split.
    { right. split; [lia|]. split; [reflexivity|].
      intros [|j] Hj; [discriminate|simpl in Hj; lia]. }
    split; [vm_compute; split; congruence|].
    split; [reflexivity|]. split; [reflexivity|]. vm_compute. discriminate.
  - intros h cancelled. split.
    { right. split; [lia|]. split; [reflexivity|]. intros j Hj. simpl in Hj. lia. }
    split; [reflexivity|]. split; reflexivity.
Qed.

(** C7. An Advance or a Retreat with a state payload overwrites the state
    of the registry step at the externally observed active index with the
    payload and of no other step: the registry keeps its length, every
    step keeps its key and its label, the step at the active index has the
    payload as its state, and every step at another index is unchanged. *)
Theorem navigation_frame (h : Host) (st : WizardState) (a : action)
    (payload : any) (i : Z) :
  a = nextStep payload \/ a = previousStep payload ->
  instanceofError payload = None ->
  activeIndex h i ->
  let st' := reducer h st a in
  length (steps st') = length (steps st) /\
  forall n step, steps st !! n = Some step ->
    exists step', steps st' !! n = Some step' /\
      key step' = key step /\
      nextButtonIntlKey step' = nextButtonIntlKey step /\
      (Z.of_nat n = i -> state step' = payload) /\
      (Z.of_nat n <> i -> step' = step).
Proof.
  intros Ha Hp Hi%activeIndex_unique st'. subst st'.
  rewrite (reducer_navigation_steps h st a payload) by done. rewrite Hi.
  split; [apply storeState_length|].
  intros n step Hn. rewrite storeState_lookup, Hn. simpl.
  eexists; split; [done|].
  case_bool_decide; simpl; repeat split; try done.
Qed.

Lemma navigation_frame_witness :
  let h := host profileSteps "payment" in
  let st := reducer (host profileSteps "profile") (started h)
              (nextStep (JString "Ada")) in
  let st' := reducer h st (nextStep (JString "card")) in
  activeIndex h 1 /\
  state <$> steps st = [JString "Ada"; JNull; JNull] /\
  state <$> steps st' = [JString "Ada"; JString "card"; JNull].
Proof.
  intros h st st'.
  assert (H1 : activeIndex h 1).
  { right. split; [lia|]. split; [reflexivity|].
    intros [|j] Hj; [discriminate|simpl in Hj; lia]. }
  split; [exact H1|]. split; [reflexivity|].
  destruct (navigation_frame h st (nextStep (JString "card")) (JString "card") 1
              (or_introl eq_refl) eq_refl H1) as [Hlen Hframe].
  fold st' in Hlen, Hframe.
  destruct (steps st') as [|s0 [|s1 [|s2 [|s3 rest]]]]; try discriminate Hlen.
  destruct (Hframe 0%nat _ eq_refl) as (step0 & Hs0 & _ & _ & _ & Hkeep0).
  destruct (Hframe 1%nat _ eq_refl) as (step1 & Hs1 & _ & _ & Hstore1 & _).
  destruct (Hframe 2%nat _ eq_refl) as (step2 & Hs2 & _ & _ & _ & Hkeep2).
  injection Hs0 as <-. injection Hs1 as <-. injection Hs2 as <-.
  simpl. rewrite (Hkeep0 ltac:(lia)), (Hstore1 eq_refl), (Hkeep2 ltac:(lia)).
  reflexivity.
Defined.

(** C10. With a non-empty declared step list and a location that matches
    no step key (the lookup of the active index gives [-1]), an Advance
    with a state payload sets the current location to the first key and
    leaves every step of the registry as it was; a Retreat sets the
    current location to the CANCEL sentinel, the registry unchanged as
    well. *)
Theorem navigation_from_unmatched_location (h : Host) (st : WizardState) (payload : any) :
  wizardSteps h <> [] ->
  getCurrentStepIndex h None = -1 ->
  instanceofError payload = None ->
  head (wizardSteps h) = Some (currentLocation (reducer h st (nextStep payload))) /\
  steps (reducer h st (nextStep payload)) = steps st /\
  currentLocation (reducer h st (previousStep payload)) = WIZARD_CANCEL /\
  steps (reducer h st (previousStep payload)) = steps st.
Proof.
  intros Hne Hi Hp.
  rewrite reducer_nextStep, reducer_previousStep by done. simpl.
  unfold getNextPage, getPreviousPage. rewrite Hi, storeState_not_found.
  destruct (wizardSteps h) as [|k keys]; [done|].
  done.
Qed.

Lemma navigation_from_unmatched_location_witness :
  let h := host profileSteps "summary" in
  wizardSteps h <> [] /\
  getCurrentStepIndex h None = -1 /\
  instanceofError (JNumber 7) = None /\
  currentLocation (reducer h (started h) (nextStep (JNumber 7))) = "profile" /\
  steps (reducer h (started h) (nextStep (JNumber 7))) = steps (started h) /\
  currentLocation (reducer h (started h) (previousStep (JNumber 7))) = WIZARD_CANCEL.
Proof.
  intros h.
  assert (Hne : wizardSteps h <> []) by discriminate.
  assert (Hi : getCurrentStepIndex h None = -1) by reflexivity.
  assert (Hp : instanceofError (JNumber 7) = None) by reflexivity.
  split; [exact Hne|]. split; [exact Hi|]. split; [exact Hp|].
  destruct (navigation_from_unmatched_location h (started h) (JNumber 7) Hne Hi Hp)
    as (Hhead & Hsteps & Hcancel & _).
  split; [|split; [exact Hsteps|exact Hcancel]].
  apply (inj Some). symmetry. exact Hhead.
Defined.

(** ** Rejected requests *)

(** C8. A request whose payload is an error value, and a request of an
    unrecognised type, leave the state as it is: the reducer returns its
    input state, writes one line to the log, and since the location has
    not changed the effect calls none of the three callbacks. *)
Theorem rejected_request (h : Host) (st : WizardState) (a : action) :
  is_Some (payloadError a) \/ (exists type payload, a = unhandled type payload) ->
  reducer h st a = st /\
  dispatch h st a = (st, []) /\
  exists entry, snd (reducerLog h st a) = [entry].
Proof.
  intros Ha.
  assert (Hst : reducer h st a = st).
  { destruct Ha as [Ha | (type & payload & ->)];
      [by apply reducer_rejected|apply reducer_unhandled]. }
  split; [done|]. split.
  - unfold dispatch. by rewrite Hst, afterRender_unchanged.
  - unfold reducerLog. destruct (payloadError a) as [message|] eqn:Hm; [by eexists|].
    destruct Ha as [[? ?] | (type & payload & ->)]; [done|by eexists].
Qed.

Lemma rejected_request_witness :
  let h := host profileSteps "payment" in
  let a := nextStep (JError "card declined") in
  (is_Some (payloadError a) \/ (exists type payload, a = unhandled type payload)) /\
  dispatch h (started h) a = (started h, []).
Proof.
  intros h a.
  assert (Ha : is_Some (payloadError a) \/
               (exists type payload, a = unhandled type payload))
    by (left; eexists; reflexivity).
  split; [exact Ha|].
  exact (proj1 (proj2 (rejected_request h (started h) a Ha))).
Defined.

(** ** The callbacks *)

Lemma assign_ordinary (o : Dictionary) (k : string) (v : any) :
  k <> "__proto__" ->
  assign o k v = {| own := <[k:=v]> (own o); prototype := prototype o |}.
Proof.
  intros Hk. unfold assign. by rewrite (proj2 (String.eqb_neq _ _) Hk).
Qed.

Lemma assign_own_other (o : Dictionary) (k k' : string) (v : any) :
  k' <> k -> own (assign o k v) !! k' = own o !! k'.
Proof.
  intros Hk. unfold assign.
  destruct (_ && _ && _); [by destruct v|].
  simpl. by rewrite lookup_insert_ne.
Qed.

Lemma collectState_snoc l step :
  collectState (l ++ [step]) = assign (collectState l) (key step) (state step).
Proof. unfold collectState. by rewrite foldl_app. Qed.

Lemma collectState_keys l k :
  k <> "__proto__" ->
  is_Some (own (collectState l) !! k) <-> k ∈ key <$> l.
Proof.
  intros Hk. induction l as [|step l IH] using rev_ind.
  - unfold collectState. simpl. rewrite lookup_empty.
    split; [by intros [? ?]|by intros ?%not_elem_of_nil].
  - rewrite collectState_snoc, fmap_app, elem_of_app. simpl.
    rewrite list_elem_of_singleton.
    destruct (decide (k = key step)) as [->|Hne].
    + rewrite assign_ordinary by done. simpl. rewrite lookup_insert_eq.
      split; [by right|by eexists].
    + rewrite assign_own_other, IH by done. split; [by left|by intros [?|?]].
Qed.

Lemma collectState_lookup l step :
  NoDup (key <$> l) -> step ∈ l -> key step <> "__proto__" ->
  own (collectState l) !! key step = Some (state step).
Proof.
  induction l as [|last l IH] using rev_ind; [by intros _ ?%not_elem_of_nil|].
  rewrite fmap_app, NoDup_app. intros (Hl & Hfresh & _).
  rewrite elem_of_app, list_elem_of_singleton, collectState_snoc.
  intros [Hin | ->] Hk.
  - rewrite assign_own_other; [by apply IH|].
    intros Heq. apply (Hfresh (key step)).
    + by apply list_elem_of_fmap_2.
    + rewrite Heq. simpl. by apply list_elem_of_singleton.
  - rewrite assign_ordinary by done. apply lookup_insert_eq.
Qed.

(** With no step of that name, the object keeps the prototype of [{}]
    and gets no property ["__proto__"]. *)
Lemma collectState_no_proto l :
  "__proto__" ∉ key <$> l ->
  prototype (collectState l) = ObjectPrototype /\
  own (collectState l) !! "__proto__" = None.
Proof.
  induction l as [|step l IH] using rev_ind; [done|].
  rewrite fmap_app, elem_of_app. simpl. rewrite list_elem_of_singleton.
  intros Hnot. rewrite collectState_snoc.
  destruct IH as [Hproto Hown]; [tauto|].
  rewrite assign_ordinary by (intros Heq; apply Hnot; by right).
  simpl. split; [done|]. rewrite lookup_insert_ne; [done|].
  intros Heq. apply Hnot. by right.
Qed.

(** C1, as the code has it. When an Advance or a Retreat with a state
    payload changes the current location to a step key, the component calls
    the step-changed callback once, with the new location key and the
    state that the registry holds after the transition for the step at the
    active index, that is the payload just given by the step being left
    ([undefined] when the registry has no step at that index). With the
    steps profile, payment and confirm, Advance(s) at profile calls it with
    payment and s. *)
Theorem stepChanged_callback :
  (forall (h : Host) (st : WizardState) (a : action) (payload : any),
     a = nextStep payload \/ a = previousStep payload ->
     instanceofError payload = None ->
     let st' := reducer h st a in
     currentLocation st' <> "" ->
     currentLocation st' <> WIZARD_COMPLETE ->
     currentLocation st' <> WIZARD_CANCEL ->
     currentLocation st' <> currentLocation st ->
     snd (dispatch h st a) =
     [onWizardStepChanged (currentLocation st')
        match at_index (steps st) (getCurrentStepIndex h None) with
        | Some _ => payload
        | None => JUndefined
        end]) /\
  (forall payload : any,
     instanceofError payload = None ->
     let h := host profileSteps "profile" in
     currentLocation (started h) = "profile" /\
     currentLocation (fst (dispatch h (started h) (nextStep payload))) = "payment" /\
     snd (dispatch h (started h) (nextStep payload)) =
     [onWizardStepChanged "payment" payload]).
Proof.
  split.
  - intros h st a payload Ha Hp st' He Hc Hx Hne.
    unfold dispatch. fold st'. simpl snd.
    rewrite afterRender_changed by done.
    rewrite locationEffect_step by done. do 2 f_equal.
    subst st'. rewrite (reducer_navigation_steps h st a payload) by done.
    unfold at_index.
    destruct (getCurrentStepIndex h None <? 0) eqn:Hneg; [done|].
    apply Z.ltb_ge in Hneg. rewrite storeState_lookup.
    destruct (steps st !! Z.to_nat (getCurrentStepIndex h None)); simpl; [|done].
    rewrite bool_decide_eq_true_2 by lia. done.
  - intros payload Hp h. unfold dispatch.
    rewrite reducer_nextStep by done. done.
Qed.

Lemma stepChanged_callback_witness :
  let h := host profileSteps "payment" in
  let st := reducer (host profileSteps "profile") (started h) (nextStep (JString "Ada")) in
  instanceofError (JString "card") = None /\
  currentLocation st = "payment" /\
  snd (dispatch h st (previousStep (JString "card"))) =
  [onWizardStepChanged "profile" (JString "card")].
Proof.
  intros h st.
  assert (Hp : instanceofError (JString "card") = None) by reflexivity.
  split; [exact Hp|]. split; [reflexivity|].
  refine (proj1 stepChanged_callback h st (previousStep (JString "card"))
            (JString "card") (or_intror eq_refl) Hp _ _ _ _); discriminate.
Defined.

(** C1, as the claim words it, fails: after Advance("Ada") at profile the
    callback receives payment with "Ada", the state just stored for
    profile, and not payment with the [null] that the registry held for
    payment before the transition. *)
Lemma stepChanged_callback_counterexample :
  let h := host profileSteps "profile" in
  let before := started h in
  currentLocation (reducer h before (nextStep (JString "Ada"))) = "payment" /\
  specStepChanged before "payment" = onWizardStepChanged "payment" JNull /\
  snd (dispatch h before (nextStep (JString "Ada"))) =
    [onWizardStepChanged "payment" (JString "Ada")] /\
  snd (dispatch h before (nextStep (JString "Ada"))) <>
    [specStepChanged before "payment"].
Proof.
  intros h before. repeat split; try reflexivity.
  vm_compute. discriminate.
Qed.

(** C9, where the code misses it. With the steps a and ["__proto__"],
    Advance at a and then Advance at ["__proto__"] end in one call of the
    completion callback, and the object it receives has no entry for the
    step ["__proto__"]: its state is stored in the registry, and the
    assignment [completeState[step.key] = step.state] on [{}] goes to the
    setter of [Object.prototype], which makes an object state the
    prototype of the payload and ignores a number. *)
Theorem completion_payload_proto_key :
  let atA := host ["a"; "__proto__"] "a" in
  let atProto := host ["a"; "__proto__"] "__proto__" in
  forall (s : string) (fields : list (string * any)) (n : Z),
    let st1 := fst (dispatch atA (started atA) (nextStep (JString s))) in
    (state <$> steps (fst (dispatch atProto st1 (nextStep (JObject fields))))
       = [JString s; JObject fields] /\
     snd (dispatch atProto st1 (nextStep (JObject fields)))
       = [onWizardComplete
            {| own := {[ "a" := JString s ]};
               prototype := ValuePrototype (JObject fields) |}]) /\
    (state <$> steps (fst (dispatch atProto st1 (nextStep (JNumber n))))
       = [JString s; JNumber n] /\
     snd (dispatch atProto st1 (nextStep (JNumber n)))
       = [onWizardComplete
            {| own := {[ "a" := JString s ]}; prototype := ObjectPrototype |}]).
Proof.
  intros atA atProto s fields n st1. subst st1. repeat split; reflexivity.
Qed.

(** ** The invariant of the current location *)

Lemma at_index_elem_of {A} (l : list A) (i : Z) (x : A) :
  at_index l i = Some x -> x ∈ l.
Proof.
  unfold at_index. destruct (i <? 0); [done|].
  apply list_elem_of_lookup_2.
Qed.

Lemma danglingFree_navigate (h : Host) (st : WizardState) (payload : any)
    (location : string) :
  key <$> steps st = wizardSteps h ->
  location = WIZARD_COMPLETE \/ location = WIZARD_CANCEL \/
    (exists i, at_index (wizardSteps h) i = Some location) ->
  danglingFree
    {| steps := storeState (getCurrentStepIndex h None) payload (steps st);
       currentLocation := location |}.
Proof.
  intros Hsync [-> | [-> | [i Hi]]]; unfold danglingFree; simpl; auto.
  do 3 right. rewrite storeState_keys, Hsync.
  by eapply at_index_elem_of.
Qed.

Lemma danglingFree_step (h : Host) (st : WizardState) (a : action) :
  danglingFree st -> processedInSync h st a -> danglingFree (reducer h st a).
Proof.
  intros Hst Hsync.
  destruct (payloadError a) as [message|] eqn:Hm;
    [by rewrite reducer_rejected|].
  destruct a as [payload | payload | keys | type payload]; simpl in Hm, Hsync.
  - rewrite reducer_nextStep by done.
    apply danglingFree_navigate; [done|].
    destruct (getNextPage_in_range h); eauto.
  - rewrite reducer_previousStep by done.
    apply danglingFree_navigate; [done|].
    destruct (getPreviousPage_in_range h); eauto.
  - destruct keys as [|k keys]; [by left|].
    rewrite reducer_reset_cons. do 3 right. cbn [steps currentLocation].
    rewrite buildSteps_keys. apply list_elem_of_here.
  - by rewrite reducer_unhandled.
Qed.

(** The guard against an Advance on the initial state is in what the
    component renders, not in the reducer: with no step of the registry
    at the current location the placeholder is rendered and no step is
    there to call [onNext] or [onBack]. *)
Lemma render_initialState (h : Host) : render h initialState = None.
Proof. reflexivity. Qed.

Lemma render_Some_danglingFree (h : Host) (st : WizardState) :
  is_Some (render h st) -> danglingFree st.
Proof.
  unfold render. intros Hr. do 3 right.
  destruct (filter _ (steps st)) as [|currentStep rest] eqn:Hf;
    [by destruct Hr|].
  assert (Hin : currentStep ∈ filter (fun step => key step = currentLocation st)
                               (steps st))
    by (rewrite Hf; apply list_elem_of_here).
  apply list_elem_of_filter in Hin as [<- Hin].
  by apply list_elem_of_fmap_2.
Qed.

(** C3, as the code has it. In every state that the reducer produces from
    the initial state through Advance, Retreat, Reinitialize and rejected
    requests, each Advance and each Retreat being processed while the keys
    of the registry are the declared step list of the render that
    processes it, the current location is empty, a sentinel, or the key of
    a step of the registry. *)
Theorem no_dangling_location (st : WizardState) :
  syncReachable st -> danglingFree st.
Proof.
  induction 1 as [|h st a _ IH Hsync]; [by left|].
  by apply danglingFree_step.
Qed.

Lemma no_dangling_location_witness :
  let atA := host abSteps "a" in
  let st := reducer atA (started atA) (nextStep (JString "x")) in
  syncReachable st /\ currentLocation st = "b" /\ danglingFree st.
Proof.
  intros atA st.
  assert (Hreach : syncReachable st).
  { apply syncReachable_step; [|reflexivity].
    apply syncReachable_step; [apply syncReachable_initial|exact I]. }
  split; [exact Hreach|]. split; [reflexivity|].
  exact (no_dangling_location st Hreach).
Defined.

(** C3, as the claim words it, fails: an Advance processed before the
    first Reinitialize leaves the registry empty and sets the current
    location to b, and an Advance processed after the declared list has
    changed to a, c sets the current location to c over the registry a,
    b. *)
Lemma no_dangling_location_counterexample :
  (reachable dangling /\
   dangling = {| steps := []; currentLocation := "b" |} /\
   ~ danglingFree dangling) /\
  (reachable danglingAfterListChange /\
   currentLocation danglingAfterListChange = "c" /\
   key <$> steps danglingAfterListChange = ["a"; "b"] /\
   ~ danglingFree danglingAfterListChange).
Proof.
  split.
  - split; [apply reachable_advance, reachable_initial|].
    split; [reflexivity|].
    intros [H | [H | [H | H]]]; try discriminate H.
    by apply not_elem_of_nil in H.
  - split; [apply reachable_advance, reachable_reinitialize, reachable_initial|].
    split; [reflexivity|]. split; [reflexivity|].
    intros [H | [H | [H | H]]]; try discriminate H.
    apply list_elem_of_In in H. vm_compute in H.
    destruct H as [H | [H | []]]; discriminate H.
Qed.

(** ** The context *)

(** C2. [useWizardContext] with no enclosing provider returns the default
    value of the context, the empty object; under no stack of providers
    does it throw. *)
Theorem useWizardContext_outside_provider :
  useWizardContext [] = returns ctx_empty_object /\
  forall providers message, useWizardContext providers <> throws message.
Proof.
  split; [reflexivity|].
  intros [|value providers] message; discriminate.
Qed.

(** * Further properties of the component *)

(** ** The active step *)

Lemma append_String c (p s : string) : String c p ++ s = String c (p ++ s).
Proof. reflexivity. Qed.

Lemma append_associative (a b c : string) : a ++ (b ++ c) = (a ++ b) ++ c.
Proof.
  induction a as [|x a IH]; [done|]. by rewrite !append_String, IH.
Qed.

Lemma prefix_append (p s : string) : String.prefix p (p ++ s) = true.
Proof.
  induction p as [|c p IH]; simpl; [by destruct s|].
  by destruct (Ascii.ascii_dec c c).
Qed.

Lemma slice_append (p s : string) : slice (String.length p) (p ++ s) = s.
Proof. induction p as [|c p IH]; simpl; [by destruct s|done]. Qed.

Lemma prefix_slice (p s : string) :
  String.prefix p s = true -> s = p ++ slice (String.length p) s.
Proof.
  revert s. induction p as [|c p IH]; intros s Hp; [by destruct s|].
  destruct s as [|d s]; simpl in Hp; [done|].
  destruct (Ascii.ascii_dec c d) as [->|]; [|done].
  rewrite append_String. cbn [String.length slice]. f_equal. by apply IH.
Qed.

Lemma replace_prefix (p r s : string) :
  String.prefix p s = true ->
  replace p r s = r ++ slice (String.length p) s.
Proof. intros Hp. destruct s; cbn [replace]; by rewrite Hp. Qed.

Lemma replace_no_prefix (p r : string) c (s : string) :
  String.prefix p (String c s) = false ->
  replace p r (String c s) = String c (replace p r s).
Proof. intros Hp. cbn [replace]. by rewrite Hp. Qed.

(** [replace] rewrites the first occurrence of the pattern and nothing
    else. *)
Lemma replace_first_occurrence (p r s : string) :
  (~ occursIn p s /\ replace p r s = s) \/
  (exists a b, s = a ++ p ++ b /\ replace p r s = a ++ r ++ b /\
     forall a' b', s = a' ++ p ++ b' ->
       (String.length a <= String.length a')%nat).
Proof.
  induction s as [|c s IH].
  - destruct (String.prefix p "") eqn:Hp.
    + right. exists "", "". destruct p; [|done].
      split; [done|]. split; [done|]. intros; simpl; lia.
    + left. split; [|cbn [replace]; by rewrite Hp].
      intros (a & b & Hs). destruct a; [|done]. by destruct p.
  - destruct (String.prefix p (String c s)) eqn:Hp.
    + right. exists "", (slice (String.length p) (String c s)).
      split; [by apply prefix_slice|]. split; [by apply replace_prefix|].
      intros; simpl; lia.
    + rewrite replace_no_prefix by done.
      assert (Hhead : forall b, String c s <> p ++ b).
      { intros b Hs. by rewrite Hs, prefix_append in Hp. }
      destruct IH as [[Hno ->] | (a & b & -> & -> & Hmin)].
      * left. split; [|done]. intros (a & b & Hs).
        destruct a as [|d a]; [by apply (Hhead b)|].
        injection Hs as _ ->. apply Hno. by exists a, b.
      * right. exists (String c a), b. repeat split.
        intros a' b' Hs. destruct a' as [|d a']; [by destruct (Hhead b')|].
        injection Hs as _ Hs. simpl. apply le_n_S. by eapply Hmin.
Qed.

Lemma stepName_of_navigate (h : Host) (location : string) :
  getCurrentStepName (navigate h location) = location.
Proof.
  unfold getCurrentStepName, navigate. simpl.
  rewrite append_associative, replace_prefix by apply prefix_append.
  by rewrite slice_append.
Qed.

(** X1. The step name read off the location that the host navigates to on
    a step-changed callback is the location key it was given, whatever the
    base path and the key are. *)
Theorem getCurrentStepName_navigate (h : Host) (location : string) :
  getCurrentStepName (navigate h location) = location.
Proof. apply stepName_of_navigate. Qed.

(** X2. The step name is the location with the first occurrence of the
    base path and its slash taken out, wherever in the location that
    occurrence is; a location that does not contain them is the step name
    as it is. *)
Theorem getCurrentStepName_first_occurrence (h : Host) :
  let base := matchUrl h ++ "/" in
  (~ occursIn base (pathname h) /\ getCurrentStepName h = pathname h) \/
  (exists a b,
     pathname h = a ++ base ++ b /\
     getCurrentStepName h = a ++ b /\
     forall a' b', pathname h = a' ++ base ++ b' ->
       (String.length a <= String.length a')%nat).
Proof.
  intros base. unfold getCurrentStepName. fold base.
  destruct (replace_first_occurrence base "" (pathname h))
    as [? | (a & b & Hs & Hr & Hmin)]; [by left|right].
  exists a, b. by rewrite Hr.
Qed.

(** X3. The active index is [-1] exactly when the step name is no declared
    key; otherwise it is the index of the first declared key equal to the
    step name, so that a key declared twice is active at its first place
    only. *)
Theorem getCurrentStepIndex_first_match (h : Host) :
  let name := getCurrentStepName h in
  let i := getCurrentStepIndex h None in
  (i = -1 /\ name ∉ wizardSteps h) \/
  (0 <= i /\ wizardSteps h !! Z.to_nat i = Some name /\
   forall j, (j < Z.to_nat i)%nat -> wizardSteps h !! j <> Some name).
Proof. apply findIndex_key. Qed.

Lemma stepIndex_of_navigate (h : Host) (location : string) (n : nat) :
  NoDup (wizardSteps h) -> wizardSteps h !! n = Some location ->
  getCurrentStepIndex (navigate h location) None = Z.of_nat n.
Proof.
  intros Hnodup Hn. unfold getCurrentStepIndex.
  rewrite stepName_of_navigate. by apply findIndex_key_NoDup.
Qed.

(** X4. With distinct declared keys, once the host has navigated to the
    route of the declared key at index [n], the active index is [n]. *)
Theorem getCurrentStepIndex_navigate (h : Host) (location : string) (n : nat) :
  NoDup (wizardSteps h) ->
  wizardSteps h !! n = Some location ->
  getCurrentStepIndex (navigate h location) None = Z.of_nat n.
Proof. apply stepIndex_of_navigate. Qed.

Lemma getCurrentStepIndex_navigate_witness :
  NoDup (wizardSteps (host profileSteps "profile")) /\
  wizardSteps (host profileSteps "profile") !! 2%nat = Some "confirm" /\
  getCurrentStepIndex (navigate (host profileSteps "profile") "confirm") None = 2.
Proof.
  assert (Hnodup : NoDup (wizardSteps (host profileSteps "profile")))
    by (refine (bool_decide_unpack (NoDup profileSteps) _); vm_compute; exact I).
  split; [exact Hnodup|]. split; [reflexivity|].
  exact (getCurrentStepIndex_navigate (host profileSteps "profile") "confirm" 2
           Hnodup eq_refl).
Defined.

(** ** The state that the steps read back *)

Lemma getCurrentStepIndex_own_name (h : Host) :
  getCurrentStepIndex h (Some (getCurrentStepName h)) = getCurrentStepIndex h None.
Proof.
  unfold getCurrentStepIndex. by destruct (falsy (getCurrentStepName h)).
Qed.

(** What the getter evaluates to, by the active index. *)
Lemma previousState_cases (h : Host) (st : WizardState) :
  previousState h st =
  if getCurrentStepIndex h None =? -1 then returns JNull
  else match at_index (steps st) (getCurrentStepIndex h None) with
       | Some step => returns (state step)
       | None => throws "TypeError"
       end.
Proof. unfold previousState. by rewrite getCurrentStepIndex_own_name. Qed.

Lemma previousState_found (h : Host) (st : WizardState) (step : WizardStep) :
  at_index (steps st) (getCurrentStepIndex h None) = Some step ->
  previousState h st = returns (state step).
Proof.
  intros Hstep. rewrite previousState_cases, Hstep.
  destruct (Z.eqb_spec (getCurrentStepIndex h None) (-1)) as [Heq|]; [|done].
  by rewrite Heq in Hstep.
Qed.

Lemma reducer_untouched (h : Host) (st : WizardState) (a : action) (i : Z) :
  ~ touches i (h, a) ->
  at_index (steps (reducer h st a)) i = at_index (steps st) i.
Proof.
  intros Hno. destruct (payloadError a) as [message|] eqn:Hm;
    [by rewrite reducer_rejected|].
  destruct a as [payload | payload | keys | type payload]; simpl in Hm.
  - rewrite (reducer_navigation_steps h st _ payload) by auto.
    unfold at_index. destruct (i <? 0) eqn:Hi; [done|].
    apply Z.ltb_ge in Hi. rewrite storeState_lookup.
    destruct (steps st !! Z.to_nat i); simpl; [|done].
    rewrite bool_decide_eq_false_2; [done|].
    intros Heq. apply Hno. unfold touches. simpl. lia.
  - rewrite (reducer_navigation_steps h st _ payload) by auto.
    unfold at_index. destruct (i <? 0) eqn:Hi; [done|].
    apply Z.ltb_ge in Hi. rewrite storeState_lookup.
    destruct (steps st !! Z.to_nat i); simpl; [|done].
    rewrite bool_decide_eq_false_2; [done|].
    intros Heq. apply Hno. unfold touches. simpl. lia.
  - by destruct Hno.
  - by rewrite reducer_unhandled.
Qed.

Lemma runs_untouched (st : WizardState) (trace : list (Host * action)) (i : Z) :
  Forall (fun ha => ~ touches i ha) trace ->
  at_index (steps (runs st trace)) i = at_index (steps st) i.
Proof.
  revert st. induction trace as [|[h a] trace IH]; intros st Htrace; [done|].
  apply Forall_cons in Htrace as [Hhead Htail].
  unfold runs. simpl. fold (runs (reducer h st a) trace).
  rewrite IH by done. by apply reducer_untouched.
Qed.

Lemma reducer_stored (h : Host) (st : WizardState) (a : action) (payload : any) :
  a = nextStep payload \/ a = previousStep payload ->
  instanceofError payload = None ->
  0 <= getCurrentStepIndex h None < Z.of_nat (length (steps st)) ->
  exists step,
    at_index (steps (reducer h st a)) (getCurrentStepIndex h None) = Some step /\
    state step = payload.
Proof.
  intros Ha Hp Hi. rewrite (reducer_navigation_steps h st a payload) by done.
  rewrite at_index_lookup, storeState_lookup by lia.
  destruct (lookup_lt_is_Some_2 (steps st) (Z.to_nat (getCurrentStepIndex h None)))
    as [step ->]; [lia|].
  simpl. rewrite bool_decide_eq_true_2 by lia. by eexists.
Qed.

(** X5. The state that a step hands to [onNext] or [onBack] is what
    [previousState] gives back when the user is at that step again,
    whatever was dispatched in between, as long as the registry was not
    reset and nothing was dispatched from that step's own index. *)
Theorem previousState_rehydrates (h : Host) (st : WizardState) (a : action)
    (payload : any) (trace : list (Host * action)) :
  a = nextStep payload \/ a = previousStep payload ->
  instanceofError payload = None ->
  0 <= getCurrentStepIndex h None < Z.of_nat (length (steps st)) ->
  Forall (fun ha => ~ touches (getCurrentStepIndex h None) ha) trace ->
  previousState h (runs (reducer h st a) trace) = returns payload.
Proof.
  intros Ha Hp Hi Htrace.
  destruct (reducer_stored h st a payload Ha Hp Hi) as (step & Hstep & <-).
  apply previousState_found. by rewrite runs_untouched.
Qed.

Lemma previousState_rehydrates_witness :
  let atProfile := host profileSteps "profile" in
  let atPayment := host profileSteps "payment" in
  let trace := [(atPayment, nextStep (JNumber 42));
                (host profileSteps "confirm", previousStep JNull);
                (atPayment, unhandled "@Wizard/other" JNull)] in
  0 <= getCurrentStepIndex atProfile None
    < Z.of_nat (length (steps (started atProfile))) /\
  Forall (fun ha => ~ touches (getCurrentStepIndex atProfile None) ha) trace /\
  previousState atProfile
    (runs (reducer atProfile (started atProfile) (nextStep (JString "Ada"))) trace)
  = returns (JString "Ada").
Proof.
  intros atProfile atPayment trace.
  assert (Hi : 0 <= getCurrentStepIndex atProfile None
               < Z.of_nat (length (steps (started atProfile))))
    by (vm_compute; split; congruence).
  assert (Htrace : Forall (fun ha => ~ touches (getCurrentStepIndex atProfile None) ha)
                     trace)
    by (repeat apply Forall_cons_2; try apply Forall_nil_2; vm_compute; congruence).
  split; [exact Hi|]. split; [exact Htrace|].
  exact (previousState_rehydrates atProfile (started atProfile) _ (JString "Ada")
           trace (or_introl eq_refl) eq_refl Hi Htrace).
Defined.

(** X6. While the keys of the registry are the declared step list, reading
    [previousState] never throws: it is [null] at a location that matches
    no declared key and the stored state of the active step otherwise. *)
Theorem previousState_in_sync (h : Host) (st : WizardState) :
  key <$> steps st = wizardSteps h ->
  (getCurrentStepIndex h None = -1 /\ previousState h st = returns JNull) \/
  (exists step,
     at_index (steps st) (getCurrentStepIndex h None) = Some step /\
     key step = getCurrentStepName h /\
     previousState h st = returns (state step)).
Proof.
  intros Hsync.
  destruct (findIndex_key (getCurrentStepName h) (wizardSteps h))
    as [[Hi _] | (Hi & Hfound & _)];
    fold (getCurrentStepIndex h None) in *.
  - left. split; [done|]. by rewrite previousState_cases, Hi.
  - right. rewrite <- Hsync, list_lookup_fmap in Hfound.
    destruct (steps st !! Z.to_nat (getCurrentStepIndex h None))
      as [step|] eqn:Hstep; simplify_eq/=.
    exists step. rewrite at_index_lookup by done.
    split; [done|]. split; [done|].
    apply previousState_found. by rewrite at_index_lookup.
Qed.

Lemma previousState_in_sync_witness :
  let h := host profileSteps "payment" in
  let st := reducer h (started h) (previousStep (JString "card")) in
  key <$> steps st = wizardSteps h /\
  previousState h st = returns (JString "card").
Proof.
  intros h st.
  assert (Hsync : key <$> steps st = wizardSteps h) by reflexivity.
  split; [exact Hsync|].
  destruct (previousState_in_sync h st Hsync)
    as [[Hi _] | (step & Hstep & _ & ->)]; [discriminate Hi|].
  vm_compute in Hstep. by injection Hstep as <-.
Defined.

(** X7. When the active index is found in the declared list and the
    registry has no step at that index (it was built for a shorter list),
    reading [previousState] throws a [TypeError]. *)
Theorem previousState_throws (h : Host) (st : WizardState) :
  0 <= getCurrentStepIndex h None ->
  Z.of_nat (length (steps st)) <= getCurrentStepIndex h None ->
  previousState h st = throws "TypeError".
Proof.
  intros Hfound Hshort. rewrite previousState_cases.
  destruct (Z.eqb_spec (getCurrentStepIndex h None) (-1)); [lia|].
  rewrite at_index_lookup, lookup_ge_None_2 by lia. done.
Qed.

Lemma previousState_throws_witness :
  let before := started (host abSteps "a") in
  let grown := host ["a"; "b"; "c"] "c" in
  0 <= getCurrentStepIndex grown None /\
  Z.of_nat (length (steps before)) <= getCurrentStepIndex grown None /\
  is_Some (render grown before) /\
  previousState grown before = throws "TypeError".
Proof.
  intros before grown.
  assert (Hfound : 0 <= getCurrentStepIndex grown None) by (vm_compute; congruence).
  assert (Hshort : Z.of_nat (length (steps before)) <= getCurrentStepIndex grown None)
    by (vm_compute; congruence).
  split; [exact Hfound|]. split; [exact Hshort|].
  split; [by eexists|].
  exact (previousState_throws grown before Hfound Hshort).
Defined.

(** X8. After the reset that the component dispatches for its declared
    step list, [previousState] is [null] at every location, whatever the
    registry held before. *)
Theorem previousState_after_reset (h : Host) (st : WizardState) :
  previousState h (reducer h st (reset (wizardSteps h))) = returns JNull.
Proof.
  rewrite previousState_cases.
  destruct (Z.eqb_spec (getCurrentStepIndex h None) (-1)) as [|Hne]; [done|].
  pose proof (getCurrentStepIndex_range h) as Hr.
  destruct (wizardSteps h) as [|k keys] eqn:Hkeys; [simpl in Hr; lia|].
  rewrite reducer_reset_cons. cbn [steps].
  rewrite at_index_lookup, buildSteps_lookup by lia.
  destruct (lookup_lt_is_Some_2 (k :: keys) (Z.to_nat (getCurrentStepIndex h None)))
    as [k' ->]; [lia|done].
Qed.

(** ** What the component renders *)

Lemma render_None (h : Host) (st : WizardState) :
  render h st = None <-> currentLocation st ∉ key <$> steps st.
Proof.
  unfold render.
  destruct (filter _ (steps st)) as [|currentStep rest] eqn:Hf.
  - split; [intros _|done].
    intros (step & Hkey & Hin)%list_elem_of_fmap.
    assert (Hin' : step ∈ filter (fun step => key step = currentLocation st)
                            (steps st))
      by (by apply list_elem_of_filter).
    rewrite Hf in Hin'. by apply not_elem_of_nil in Hin'.
  - split; [done|]. intros Hnot. destruct Hnot.
    assert (Hin : currentStep ∈ filter (fun step => key step = currentLocation st)
                                 (steps st))
      by (rewrite Hf; apply list_elem_of_here).
    apply list_elem_of_filter in Hin as [<- Hin].
    by apply list_elem_of_fmap_2.
Qed.

(** X9. The component renders the placeholder, and not the provider with
    the steps, exactly when no step of the registry has the current
    location of the machine as its key. *)
Theorem render_placeholder (h : Host) (st : WizardState) :
  render h st = None <-> currentLocation st ∉ key <$> steps st.
Proof. apply render_None. Qed.

(** X10. Once the component has dispatched the reset for its declared step
    list, it renders the provider unless the list is empty: with an empty
    list the placeholder stays. *)
Theorem render_started (h : Host) :
  render h (started h) = None <-> wizardSteps h = [].
Proof.
  rewrite render_None. unfold started.
  destruct (wizardSteps h) as [|k keys]; [split; [done|]|split; [|done]].
  - intros _. rewrite reducer_reset_nil. apply not_elem_of_nil.
  - intros Hnot. destruct Hnot. rewrite reducer_reset_cons.
    cbn [steps currentLocation]. rewrite buildSteps_keys.
    apply list_elem_of_here.
Qed.

Lemma filter_first_match (l : list WizardStep) (location : string) (n : nat)
    (step : WizardStep) :
  l !! n = Some step -> key step = location ->
  (forall j other, (j < n)%nat -> l !! j = Some other -> key other <> location) ->
  head (filter (fun s => key s = location) l) = Some step.
Proof.
  revert n. induction l as [|x l IH]; intros n Hn Hkey Hfirst; [done|].
  destruct n as [|n]; simpl in Hn.
  - simplify_eq. by rewrite filter_cons_True.
  - rewrite filter_cons_False by (by apply (Hfirst 0%nat); [lia|]).
    apply (IH n); [done|done|].
    intros j other Hj Hother. apply (Hfirst (S j)); [lia|done].
Qed.

(** X11. The label that the provider hands to the steps is the label of
    the first registry step whose key is the current location of the
    machine, wherever the navigation location is. *)
Theorem render_label (h : Host) (st : WizardState) (n : nat) (step : WizardStep) :
  steps st !! n = Some step ->
  key step = currentLocation st ->
  (forall j other, (j < n)%nat -> steps st !! j = Some other ->
     key other <> currentLocation st) ->
  ctx_nextButtonIntlKey <$> render h st = Some (nextButtonIntlKey step).
Proof.
  intros Hn Hkey Hfirst. unfold render.
  pose proof (filter_first_match (steps st) (currentLocation st) n step
                Hn Hkey Hfirst) as Hhead.
  by destruct (filter _ (steps st)); simplify_eq/=.
Qed.

Lemma render_label_witness :
  let h := host profileSteps "profile" in
  let st := reducer (host profileSteps "payment") (started h) (nextStep JNull) in
  currentLocation st = "confirm" /\
  ctx_nextButtonIntlKey <$> render h st = Some "Finish".
Proof.
  intros h st. split; [reflexivity|].
  refine (render_label h st 2
            {| key := "confirm"; state := JNull; nextButtonIntlKey := "Finish" |}
            eq_refl eq_refl _).
  intros [|[|j]] other Hj Hother; [| |lia];
    vm_compute in Hother; injection Hother as <-; discriminate.
Defined.

(** ** How dispatches compose *)

Lemma storeState_overwrite i p q l :
  storeState i q (storeState i p l) = storeState i q l.
Proof.
  apply list_eq; intros n. rewrite !storeState_lookup.
  destruct (l !! n); simpl; [|done]. by case_bool_decide.
Qed.

(** X12. A second Advance (or a second Retreat) dispatched from the same
    render location calls no callback, and leaves the state as the second
    one alone would have: the state payload of the first is overwritten,
    the current location is the same. *)
Theorem repeated_navigation (h : Host) (st : WizardState) (a a' : action)
    (p q : any) :
  (a = nextStep p /\ a' = nextStep q) \/
  (a = previousStep p /\ a' = previousStep q) ->
  instanceofError p = None ->
  instanceofError q = None ->
  snd (dispatch h (reducer h st a) a') = [] /\
  reducer h (reducer h st a) a' = reducer h st a'.
Proof.
  intros [[-> ->] | [-> ->]] Hp Hq; unfold dispatch; simpl snd.
  - rewrite !reducer_nextStep by done. cbn [steps currentLocation].
    rewrite storeState_overwrite. split; [|done].
    unfold afterRender. cbn [currentLocation]. by rewrite String.eqb_refl.
  - rewrite !reducer_previousStep by done. cbn [steps currentLocation].
    rewrite storeState_overwrite. split; [|done].
    unfold afterRender. cbn [currentLocation]. by rewrite String.eqb_refl.
Qed.

Lemma repeated_navigation_witness :
  let h := host profileSteps "profile" in
  let once := reducer h (started h) (nextStep (JString "Ada")) in
  instanceofError (JString "Ada") = None /\
  instanceofError (JString "Grace") = None /\
  snd (dispatch h once (nextStep (JString "Grace"))) = [] /\
  reducer h once (nextStep (JString "Grace")) =
  reducer h (started h) (nextStep (JString "Grace")).
Proof.
  intros h once.
  split; [reflexivity|]. split; [reflexivity|].
  exact (repeated_navigation h (started h) _ _ (JString "Ada") (JString "Grace")
           (or_introl (conj eq_refl eq_refl)) eq_refl eq_refl).
Defined.

(** X13. The reset that the component dispatches for a declared list whose
    first key is no sentinel and not empty, from a state that is not at
    that key already, makes the component call the step-changed callback
    once, with the first key; the state passed is [null] when the
    navigation location is a declared step and [undefined] when it is
    not. *)
Theorem reset_notifies_first_step (h : Host) (st : WizardState)
    (k : string) (keys : list string) :
  wizardSteps h = k :: keys ->
  k <> "" -> k <> WIZARD_COMPLETE -> k <> WIZARD_CANCEL ->
  currentLocation st <> k ->
  snd (dispatch h st (reset (wizardSteps h))) =
  [onWizardStepChanged k
     (if getCurrentStepIndex h None =? -1 then JUndefined else JNull)].
Proof.
  intros Hkeys He Hc Hx Hne. unfold dispatch. simpl snd.
  pose proof (getCurrentStepIndex_range h) as Hr.
  rewrite Hkeys in *. rewrite reducer_reset_cons.
  rewrite afterRender_changed, locationEffect_step by done.
  cbn [steps currentLocation]. do 2 f_equal.
  destruct (Z.eqb_spec (getCurrentStepIndex h None) (-1)) as [->|Hfound]; [done|].
  rewrite at_index_lookup, buildSteps_lookup by lia.
  destruct (lookup_lt_is_Some_2 (k :: keys) (Z.to_nat (getCurrentStepIndex h None)))
    as [k' ->]; [lia|done].
Qed.

Lemma reset_notifies_first_step_witness :
  let h := host profileSteps "" in
  wizardSteps h = "profile" :: ["payment"; "confirm"] /\
  currentLocation initialState <> "profile" /\
  snd (dispatch h initialState (reset (wizardSteps h))) =
  [onWizardStepChanged "profile" JUndefined].
Proof.
  intros h.
  assert (Hne : currentLocation initialState <> "profile") by discriminate.
  split; [reflexivity|]. split; [exact Hne|].
  refine (reset_notifies_first_step h initialState "profile" ["payment"; "confirm"]
            eq_refl _ _ _ Hne); discriminate.
Defined.

(** X14. A reset with the empty list calls no callback, from any state,
    and leaves the machine in its initial state; a reset whose first key
    is the current location already rebuilds the registry and calls no
    callback either. *)
Theorem reset_silent (h : Host) (st : WizardState) :
  dispatch h st (reset []) = (initialState, []) /\
  forall keys,
    snd (dispatch h st (reset (currentLocation st :: keys))) = [] /\
    steps (fst (dispatch h st (reset (currentLocation st :: keys)))) =
    buildSteps (nextIntlKey h) (completeIntlKey h) (currentLocation st :: keys).
Proof.
  unfold dispatch. split.
  - rewrite reducer_reset_nil. unfold afterRender, locationEffect.
    cbn [currentLocation falsy]. by destruct (String.eqb _ _).
  - intros keys. rewrite reducer_reset_cons. simpl fst. simpl snd.
    split; [|done]. unfold afterRender. cbn [currentLocation].
    by rewrite String.eqb_refl.
Qed.

Lemma getNextPage_at (h : Host) (k : string) :
  at_index (wizardSteps h) (getCurrentStepIndex h None + 1) = Some k ->
  getNextPage h = k.
Proof.
  intros Hk. destruct (getNextPage_in_range h) as [Hc | Hn]; [|congruence].
  unfold getNextPage in *.
  destruct (Z.geb_spec (getCurrentStepIndex h None + 1)
              (Z.of_nat (length (wizardSteps h)))) as [Hge|]; [|by rewrite Hk].
  pose proof (getCurrentStepIndex_range h).
  rewrite at_index_lookup, lookup_ge_None_2 in Hk by lia. done.
Qed.

Lemma getPreviousPage_at (h : Host) (k : string) :
  0 <= getCurrentStepIndex h None - 1 ->
  at_index (wizardSteps h) (getCurrentStepIndex h None - 1) = Some k ->
  getPreviousPage h = k.
Proof.
  intros Hi Hk. unfold getPreviousPage.
  destruct (Z.ltb_spec (getCurrentStepIndex h None - 1) 0); [lia|].
  by rewrite Hk.
Qed.

(** X15. With distinct declared keys and the registry in sync, an Advance
    from the step at index [n] followed, once the host has navigated to
    the new location, by a Retreat brings the current location back to
    that step; both states are kept, each readable by its own step. *)
Theorem advance_then_retreat (h : Host) (st : WizardState) (n : nat)
    (k k' : string) (p q : any) :
  NoDup (wizardSteps h) ->
  key <$> steps st = wizardSteps h ->
  wizardSteps h !! n = Some k ->
  wizardSteps h !! S n = Some k' ->
  instanceofError p = None ->
  instanceofError q = None ->
  let st1 := reducer (navigate h k) st (nextStep p) in
  let st2 := reducer (navigate h (currentLocation st1)) st1 (previousStep q) in
  currentLocation st1 = k' /\
  currentLocation st2 = k /\
  previousState (navigate h k) st2 = returns p /\
  previousState (navigate h k') st2 = returns q.
Proof.
  intros Hnodup Hsync Hn HSn Hp Hq st1 st2.
  pose proof (stepIndex_of_navigate h k n Hnodup Hn) as Hi.
  pose proof (stepIndex_of_navigate h k' (S n) Hnodup HSn) as Hi'.
  assert (Hloc1 : currentLocation st1 = k').
  { subst st1. rewrite reducer_nextStep by done. cbn [currentLocation].
    apply getNextPage_at. rewrite Hi, at_index_lookup by lia.
    by replace (Z.to_nat (Z.of_nat n + 1)) with (S n) by lia. }
  assert (Hloc2 : currentLocation st2 = k).
  { subst st2. rewrite Hloc1, reducer_previousStep by done. cbn [currentLocation].
    apply getPreviousPage_at; rewrite Hi'; [lia|].
    rewrite at_index_lookup by lia.
    by replace (Z.to_nat (Z.of_nat (S n) - 1)) with n by lia. }
  assert (Hsteps : steps st2 =
                   storeState (Z.of_nat (S n)) q (storeState (Z.of_nat n) p (steps st))).
  { subst st2. rewrite Hloc1, reducer_previousStep by done. cbn [steps].
    subst st1. rewrite reducer_nextStep by done. cbn [steps].
    by rewrite Hi, Hi'. }
  assert (Hlen : (S n < length (steps st))%nat).
  { rewrite <- (length_fmap key), Hsync. by eapply lookup_lt_Some. }
  destruct (lookup_lt_is_Some_2 (steps st) n) as [step Hstep]; [lia|].
  destruct (lookup_lt_is_Some_2 (steps st) (S n)) as [step' Hstep']; [lia|].
  split; [done|]. split; [done|]. split.
  - apply (previousState_found _ _ (withState step p)).
    rewrite Hi, Hsteps, at_index_lookup, Nat2Z.id, !storeState_lookup, Hstep by lia.
    simpl. by repeat (case_bool_decide; try lia).
  - apply (previousState_found _ _ (withState step' q)).
    rewrite Hi', Hsteps, at_index_lookup, Nat2Z.id, !storeState_lookup, Hstep' by lia.
    simpl. by repeat (case_bool_decide; try lia).
Qed.

Lemma advance_then_retreat_witness :
  let h := host profileSteps "" in
  let st1 := reducer (navigate h "payment") (started h) (nextStep (JNumber 1)) in
  let st2 := reducer (navigate h (currentLocation st1)) st1 (previousStep (JNumber 2)) in
  NoDup (wizardSteps h) /\
  key <$> steps (started h) = wizardSteps h /\
  currentLocation st2 = "payment" /\
  previousState (navigate h "confirm") st2 = returns (JNumber 2).
Proof.
  intros h st1 st2.
  assert (Hnodup : NoDup (wizardSteps h))
    by (refine (bool_decide_unpack (NoDup profileSteps) _); vm_compute; exact I).
  assert (Hsync : key <$> steps (started h) = wizardSteps h) by reflexivity.
  split; [exact Hnodup|]. split; [exact Hsync|].
  destruct (advance_then_retreat h (started h) 1 "payment" "confirm"
              (JNumber 1) (JNumber 2) Hnodup Hsync eq_refl eq_refl eq_refl eq_refl)
    as (_ & Hback & _ & Hread).
  split; [exact Hback|exact Hread].
Defined.

(** ** The completion payload *)

Lemma collectState_own_last (l : list WizardStep) (k : string) :
  k <> "__proto__" ->
  own (collectState l) !! k
  = state <$> last (filter (fun step => key step = k) l).
Proof.
  intros Hk. induction l as [|step l IH] using rev_ind; [done|].
  rewrite collectState_snoc, filter_app.
  destruct (decide (key step = k)) as [Heq|Hne].
  - rewrite filter_cons_True, filter_nil by done.
    rewrite last_snoc, assign_ordinary by congruence.
    simpl. rewrite <- Heq. apply lookup_insert_eq.
  - rewrite filter_cons_False, filter_nil by done.
    rewrite app_nil_r, assign_own_other by done. apply IH.
Qed.

(** X16. With no registry step named ["__proto__"], the completion payload
    has an own entry for a key exactly when some registry step has that
    key, and the entry is the state of the last such step: with a key
    declared twice, the later step's state is the one reported. *)
Theorem collectState_last_wins (l : list WizardStep) (k : string) :
  "__proto__" ∉ key <$> l ->
  own (collectState l) !! k
  = state <$> last (filter (fun step => key step = k) l).
Proof.
  intros Hplain. destruct (decide (k = "__proto__")) as [->|Hk];
    [|by apply collectState_own_last].
  rewrite (proj2 (collectState_no_proto l Hplain)).
  assert (Hnone : filter (fun step => key step = "__proto__") l = []).
  { destruct (filter _ l) as [|step rest] eqn:Hf; [done|].
    assert (Hin : step ∈ filter (fun step => key step = "__proto__") l)
      by (rewrite Hf; apply list_elem_of_here).
    apply list_elem_of_filter in Hin as [Hkey Hin].
    destruct Hplain. rewrite <- Hkey. by apply list_elem_of_fmap_2. }
  by rewrite Hnone.
Qed.

Lemma collectState_last_wins_witness :
  let l := [{| key := "a"; state := JNumber 1; nextButtonIntlKey := "Next" |};
            {| key := "b"; state := JNumber 2; nextButtonIntlKey := "Next" |};
            {| key := "a"; state := JNumber 3; nextButtonIntlKey := "Finish" |}] in
  ("__proto__" ∉ key <$> l) /\
  own (collectState l) !! "a" = Some (JNumber 3) /\
  own (collectState l) !! "c" = None.
Proof.
  intros l.
  assert (Hplain : "__proto__" ∉ key <$> l).
  { intros Hx. apply list_elem_of_In in Hx. simpl in Hx.
    destruct Hx as [Hx | [Hx | [Hx | []]]]; discriminate Hx. }
  split; [exact Hplain|]. split.
  - exact (collectState_last_wins l "a" Hplain).
  - exact (collectState_last_wins l "c" Hplain).
Defined.

Lemma collectState_list_to_map (l : list WizardStep) :
  NoDup (key <$> l) ->
  "__proto__" ∉ key <$> l ->
  collectState l =
  {| own := list_to_map ((fun step => (key step, state step)) <$> l);
     prototype := ObjectPrototype |}.
Proof.
  intros Hnodup Hplain.
  destruct (collectState_no_proto l Hplain) as [Hproto Hnone].
  assert (Hfst : ((fun step => (key step, state step)) <$> l).*1 = key <$> l).
  { rewrite <- list_fmap_compose. by apply list_fmap_ext. }
  assert (Hown : own (collectState l)
                 = list_to_map ((fun step => (key step, state step)) <$> l)).
  { apply map_eq; intros k.
    destruct (decide (k ∈ key <$> l)) as [Hin|Hnot].
    - apply list_elem_of_fmap in Hin as (step & -> & Hin).
      rewrite collectState_lookup; [|done|done|].
      + symmetry. apply elem_of_list_to_map; [by rewrite Hfst|].
        apply list_elem_of_fmap. by exists step.
      + intros Heq. apply Hplain. rewrite <- Heq. by apply list_elem_of_fmap_2.
    - transitivity (@None any).
      + destruct (decide (k = "__proto__")) as [->|Hk]; [done|].
        apply eq_None_not_Some. by rewrite collectState_keys.
      + symmetry. apply not_elem_of_list_to_map. by rewrite Hfst. }
  destruct (collectState l) as [o p]. simpl in *. by subst.
Qed.

(** X19. When the current location becomes the COMPLETE sentinel the
    component calls the completion callback once, and calls it again on no
    later render with the same location. With no registry step named
    ["__proto__"], the payload is a plain object whose own entries are at
    the keys of the registry and at no other key, each step (keys being
    distinct) mapped to its own state. With the steps a and b,
    Advance(stateA) at a followed by Advance(stateB) at b ends in one call
    of the completion callback, with a mapped to stateA and b to
    stateB. *)
Theorem completion_callback :
  (forall (h : Host) (prev st : WizardState),
     currentLocation st = WIZARD_COMPLETE ->
     currentLocation prev <> WIZARD_COMPLETE ->
     afterRender h prev st = [onWizardComplete (collectState (steps st))] /\
     afterRender h st st = [] /\
     ("__proto__" ∉ key <$> steps st ->
      prototype (collectState (steps st)) = ObjectPrototype /\
      (forall k, is_Some (own (collectState (steps st)) !! k)
                 <-> k ∈ key <$> steps st) /\
      (NoDup (key <$> steps st) ->
       forall step, step ∈ steps st ->
         own (collectState (steps st)) !! key step = Some (state step)))) /\
  (forall stateA stateB : any,
     instanceofError stateA = None ->
     instanceofError stateB = None ->
     let atA := host abSteps "a" in
     let atB := host abSteps "b" in
     let st1 := fst (dispatch atA (started atA) (nextStep stateA)) in
     snd (dispatch atA (started atA) (nextStep stateA)) =
       [onWizardStepChanged "b" stateA] /\
     currentLocation (fst (dispatch atB st1 (nextStep stateB))) = WIZARD_COMPLETE /\
     snd (dispatch atB st1 (nextStep stateB)) =
       [onWizardComplete {| own := {[ "a" := stateA; "b" := stateB ]};
                            prototype := ObjectPrototype |}]).
Proof.
  split.
  - intros h prev st Hc Hprev.
    split; [|split; [apply afterRender_unchanged|]].
    + rewrite afterRender_changed by congruence.
      by apply locationEffect_complete.
    + intros Hplain.
      destruct (collectState_no_proto _ Hplain) as [Hproto Hnone].
      split; [done|]. split.
      * intros k. destruct (decide (k = "__proto__")) as [->|Hk];
          [|by apply collectState_keys].
        rewrite Hnone. split; [by intros [? ?]|done].
      * intros Hnodup step Hin. apply collectState_lookup; [done|done|].
        intros Heq. apply Hplain. rewrite <- Heq. by apply list_elem_of_fmap_2.
  - intros stateA stateB HA HB atA atB st1. subst st1. unfold dispatch.
    rewrite !reducer_nextStep by done. simpl fst. simpl snd.
    split; [done|]. split; [done|].
    rewrite afterRender_changed by discriminate.
    rewrite locationEffect_complete by done.
    (* both objects have the same normal form *)
    reflexivity.
Qed.

Lemma completion_callback_witness :
  let atConfirm := host profileSteps "confirm" in
  let st := reducer atConfirm (started atConfirm) (nextStep (JBoolean true)) in
  currentLocation st = WIZARD_COMPLETE /\
  currentLocation (started atConfirm) <> WIZARD_COMPLETE /\
  afterRender atConfirm (started atConfirm) st =
  [onWizardComplete (collectState (steps st))] /\
  own (collectState (steps st)) !! "confirm" = Some (JBoolean true) /\
  own (collectState (steps st)) !! "profile" = Some JNull.
Proof.
  intros atConfirm st.
  assert (Hc : currentLocation st = WIZARD_COMPLETE) by reflexivity.
  assert (Hprev : currentLocation (started atConfirm) <> WIZARD_COMPLETE)
    by discriminate.
  split; [exact Hc|]. split; [exact Hprev|].
  split; [exact (proj1 (proj1 completion_callback atConfirm _ st Hc Hprev))|].
  split; reflexivity.
Defined.

(** ** A walk through all the steps *)

Section Walk.
Variables next complete : IntlKey.

Lemma registryWith_lookup (keys : list string) (states : list any) (n : nat) :
  registryWith next complete keys states !! n =
  (fun k => {| key := k; state := default JNull (states !! n);
               nextButtonIntlKey :=
                 if bool_decide (S n = length keys) then complete else next |})
    <$> keys !! n.
Proof.
  unfold registryWith. rewrite list_lookup_imap, buildSteps_lookup.
  by destruct (keys !! n).
Qed.

Lemma registryWith_nil (keys : list string) :
  registryWith next complete keys [] = buildSteps next complete keys.
Proof.
  apply list_eq; intros n. rewrite registryWith_lookup, buildSteps_lookup.
  by destruct (keys !! n).
Qed.

Lemma registryWith_keys (keys : list string) (states : list any) :
  key <$> registryWith next complete keys states = keys.
Proof.
  apply list_eq; intros n. rewrite list_lookup_fmap, registryWith_lookup.
  by destruct (keys !! n).
Qed.

Lemma registryWith_pairs (keys : list string) (states : list any) :
  length states = length keys ->
  (fun step => (key step, state step)) <$> registryWith next complete keys states
  = zip keys states.
Proof.
  intros Hlen. apply list_eq; intros n.
  rewrite list_lookup_fmap, registryWith_lookup, lookup_zip_with.
  destruct (keys !! n) as [k|] eqn:Hk; simpl; [|done].
  destruct (lookup_lt_is_Some_2 states n) as [p ->]; [|done].
  rewrite Hlen. by eapply lookup_lt_Some.
Qed.

Lemma storeState_registryWith (keys : list string) (states : list any) (p : any) :
  storeState (Z.of_nat (length states)) p (registryWith next complete keys states)
  = registryWith next complete keys (states ++ [p]).
Proof.
  apply list_eq; intros n.
  rewrite storeState_lookup, !registryWith_lookup.
  destruct (keys !! n) as [k|]; simpl; [|done].
  case_bool_decide as Hn.
  - apply Nat2Z.inj in Hn as ->. unfold withState. simpl.
    by rewrite list_lookup_middle.
  - destruct (decide (n < length states)%nat).
    + by rewrite lookup_app_l.
    + rewrite !lookup_ge_None_2; [done| |lia].
      rewrite length_app. simpl. lia.
Qed.

End Walk.

Lemma walk_cons (h : Host) (st : WizardState) (location : string) (payload : any)
    (visits : list (string * any)) :
  walk h st ((location, payload) :: visits) =
  let st' := reducer (navigate h location) st (nextStep payload) in
  (fst (walk h st' visits),
   (afterRender (navigate h location) st st' ++ snd (walk h st' visits))%list).
Proof.
  simpl. unfold onNext, dispatch. by destruct (walk h _ visits).
Qed.

Lemma getNextPage_last (h : Host) :
  getCurrentStepIndex h None + 1 = Z.of_nat (length (wizardSteps h)) ->
  getNextPage h = WIZARD_COMPLETE.
Proof.
  intros Hlast. unfold getNextPage. rewrite Hlast.
  by destruct (Z.geb_spec (Z.of_nat (length (wizardSteps h)))
                 (Z.of_nat (length (wizardSteps h)))); [|lia].
Qed.

(** The walk from the step of key [k], the steps [pre] before it having
    stored the states [qs]. *)
Lemma walk_from (h : Host) (next complete : IntlKey) (post : list string) :
  forall (pre : list string) (k : string) (qs : list any) (p : any)
         (rs : list any) (st : WizardState),
    wizardSteps h = (pre ++ k :: post)%list ->
    NoDup (wizardSteps h) ->
    (forall x, x ∈ wizardSteps h ->
       x <> "" /\ x <> WIZARD_COMPLETE /\ x <> WIZARD_CANCEL) ->
    length qs = length pre ->
    length rs = length post ->
    Forall (fun v => instanceofError v = None) (p :: rs) ->
    steps st = registryWith next complete (wizardSteps h) qs ->
    currentLocation st = k ->
    walk h st (zip (k :: post) (p :: rs)) =
    ({| steps := registryWith next complete (wizardSteps h) (qs ++ p :: rs);
        currentLocation := WIZARD_COMPLETE |},
     (zip_with onWizardStepChanged post (p :: rs) ++
      [onWizardComplete
         (collectState (registryWith next complete (wizardSteps h)
                          (qs ++ p :: rs)))])%list).
Proof.
  induction post as [|k' post IH];
    intros pre k qs p rs st Hkeys Hnodup Hplain Hqs Hrs Hvalid Hsteps Hloc.
  all: apply Forall_cons in Hvalid as [Hp Hvalid].
  all: assert (Hk : wizardSteps h !! length pre = Some k)
         by (rewrite Hkeys; apply list_lookup_middle; done).
  all: pose proof (stepIndex_of_navigate h k _ Hnodup Hk) as Hi.
  all: assert (Hkin : k ∈ wizardSteps h) by (by eapply list_elem_of_lookup_2).
  all: destruct (Hplain k Hkin) as (_ & Hkc & _).
  all: simpl zip_with; rewrite walk_cons; cbv zeta.
  all: rewrite reducer_nextStep by done.
  all: rewrite Hi, Hsteps, <- Hqs, storeState_registryWith.
  - destruct rs; [|done]. simpl.
    rewrite getNextPage_last
      by (rewrite Hi; simpl; rewrite Hkeys, length_app; simpl; lia).
    rewrite afterRender_changed by (cbn [currentLocation]; congruence).
    by rewrite locationEffect_complete.
  - destruct rs as [|p' rs]; [done|]. simpl in Hrs.
    assert (Hk' : wizardSteps h !! S (length pre) = Some k').
    { rewrite Hkeys. rewrite (lookup_app_r pre) by lia.
      by replace (S (length pre) - length pre)%nat with 1%nat by lia. }
    assert (Hk'in : k' ∈ wizardSteps h) by (by eapply list_elem_of_lookup_2).
    destruct (Hplain k' Hk'in) as (Hk'e & Hk'c & Hk'x).
    assert (Hnext : getNextPage (navigate h k) = k').
    { apply getNextPage_at. rewrite Hi, at_index_lookup by lia. simpl.
      by replace (Z.to_nat (Z.of_nat (length pre) + 1)) with (S (length pre)) by lia. }
    assert (Hne : k <> k').
    { intros ->. pose proof (NoDup_lookup _ _ _ _ Hnodup Hk Hk'). lia. }
    rewrite Hnext.
    rewrite afterRender_changed by (cbn [currentLocation]; congruence).
    rewrite locationEffect_step by done. cbn [steps currentLocation].
    rewrite Hi, at_index_lookup, Nat2Z.id, registryWith_lookup, Hk by lia.
    cbn [fmap option_fmap option_map state].
    rewrite <- Hqs, list_lookup_middle by done. cbn [default].
    rewrite (IH (pre ++ [k])%list k' (qs ++ [p])%list p' rs); try done.
    + by rewrite <- !app_assoc.
    + by rewrite Hkeys, <- app_assoc.
    + rewrite !length_app. simpl. lia.
    + lia.
Qed.

(** X17. With distinct declared keys, none of them empty, a sentinel or
    ["__proto__"], a user who starts at the first step and calls [onNext] on every step in
    turn, the host navigating to each location it is given, makes the
    component call the step-changed callback for the second to the last
    key, each with the state of the step just left, and then the
    completion callback once, with a plain object that maps every key to
    the state given at its step; the machine ends at the COMPLETE
    sentinel. *)
Theorem walk_completes (h : Host) (payloads : list any) :
  wizardSteps h <> [] ->
  NoDup (wizardSteps h) ->
  (forall x, x ∈ wizardSteps h ->
     x <> "" /\ x <> WIZARD_COMPLETE /\ x <> WIZARD_CANCEL) ->
  "__proto__" ∉ wizardSteps h ->
  length payloads = length (wizardSteps h) ->
  Forall (fun v => instanceofError v = None) payloads ->
  walk h (started h) (zip (wizardSteps h) payloads) =
  ({| steps := registryWith (nextIntlKey h) (completeIntlKey h)
                 (wizardSteps h) payloads;
      currentLocation := WIZARD_COMPLETE |},
   (zip_with onWizardStepChanged (tail (wizardSteps h)) payloads ++
    [onWizardComplete
       {| own := list_to_map (zip (wizardSteps h) payloads);
          prototype := ObjectPrototype |}])%list).
Proof.
  intros Hne Hnodup Hplain Hproto Hlen Hvalid.
  assert (Hpayload :
    collectState (registryWith (nextIntlKey h) (completeIntlKey h)
                    (wizardSteps h) payloads)
    = {| own := list_to_map (zip (wizardSteps h) payloads);
         prototype := ObjectPrototype |}).
  { rewrite collectState_list_to_map by (by rewrite registryWith_keys).
    by rewrite registryWith_pairs. }
  rewrite <- Hpayload. clear Hpayload.
  destruct (wizardSteps h) as [|k post] eqn:Hkeys; [done|].
  destruct payloads as [|p rs]; [done|].
  pose proof (walk_from h (nextIntlKey h) (completeIntlKey h) post [] k [] p rs
                (started h)) as Hwalk.
  rewrite Hkeys in Hwalk. simpl in Hlen. simpl tail.
  apply Hwalk; try done.
  - lia.
  - unfold started. by rewrite Hkeys, reducer_reset_cons, registryWith_nil.
  - unfold started. by rewrite Hkeys, reducer_reset_cons.
Qed.

Lemma walk_completes_witness :
  let h := host profileSteps "" in
  let payloads := [JString "Ada"; JNumber 4242; JBoolean true] in
  NoDup (wizardSteps h) /\
  ("__proto__" ∉ wizardSteps h) /\
  Forall (fun v => instanceofError v = None) payloads /\
  snd (walk h (started h) (zip (wizardSteps h) payloads)) =
  [onWizardStepChanged "payment" (JString "Ada");
   onWizardStepChanged "confirm" (JNumber 4242);
   onWizardComplete
     {| own := list_to_map (zip (wizardSteps h) payloads);
        prototype := ObjectPrototype |}].
Proof.
  intros h payloads.
  assert (Hne : wizardSteps h <> []) by discriminate.
  assert (Hnodup : NoDup (wizardSteps h))
    by (refine (bool_decide_unpack (NoDup profileSteps) _); vm_compute; exact I).
  assert (Hplain : forall x, x ∈ wizardSteps h ->
            x <> "" /\ x <> WIZARD_COMPLETE /\ x <> WIZARD_CANCEL).
  { intros x Hx. apply list_elem_of_In in Hx. simpl in Hx.
    destruct Hx as [<- | [<- | [<- | []]]]; repeat split; discriminate. }
  assert (Hproto : "__proto__" ∉ wizardSteps h).
  { intros Hx. apply list_elem_of_In in Hx. simpl in Hx.
    destruct Hx as [Hx | [Hx | [Hx | []]]]; discriminate Hx. }
  assert (Hlen : length payloads = length (wizardSteps h)) by reflexivity.
  assert (Hvalid : Forall (fun v => instanceofError v = None) payloads)
    by (repeat constructor).
  split; [exact Hnodup|]. split; [exact Hproto|]. split; [exact Hvalid|].
  exact (f_equal snd
           (walk_completes h payloads Hne Hnodup Hplain Hproto Hlen Hvalid)).
Defined.

(** ** The shape of the registry *)

Lemma storeState_shape i payload l :
  (fun step => (key step, nextButtonIntlKey step)) <$> storeState i payload l
  = (fun step => (key step, nextButtonIntlKey step)) <$> l.
Proof.
  apply list_eq; intros n.
  rewrite !list_lookup_fmap, storeState_lookup.
  destruct (l !! n); simpl; [|done]. by case_bool_decide.
Qed.

Lemma reducer_shape (h : Host) (st : WizardState) (a : action) :
  (forall keys, a <> reset keys) ->
  (fun step => (key step, nextButtonIntlKey step)) <$> steps (reducer h st a)
  = (fun step => (key step, nextButtonIntlKey step)) <$> steps st.
Proof.
  intros Hno. destruct (payloadError a) as [message|] eqn:Hm;
    [by rewrite reducer_rejected|].
  destruct a as [payload | payload | keys | type payload]; simpl in Hm.
  - rewrite (reducer_navigation_steps h st _ payload) by auto.
    apply storeState_shape.
  - rewrite (reducer_navigation_steps h st _ payload) by auto.
    apply storeState_shape.
  - by destruct (Hno keys).
  - by rewrite reducer_unhandled.
Qed.

(** X18. Whatever is dispatched, from whatever locations and under
    whatever props, the registry keeps its steps, their order, their keys
    and their labels until the next reset: only the states change. *)
Theorem registry_shape_kept (st : WizardState) (trace : list (Host * action)) :
  Forall (fun ha => forall keys, snd ha <> reset keys) trace ->
  (fun step => (key step, nextButtonIntlKey step)) <$> steps (runs st trace)
  = (fun step => (key step, nextButtonIntlKey step)) <$> steps st.
Proof.
  revert st. induction trace as [|[h a] trace IH]; intros st Htrace; [done|].
  apply Forall_cons in Htrace as [Hhead Htail].
  unfold runs. simpl. fold (runs (reducer h st a) trace).
  rewrite IH by done. by apply reducer_shape.
Qed.

Lemma registry_shape_kept_witness :
  let h := host profileSteps "profile" in
  let trace := [(h, nextStep (JString "Ada"));
                (host ["other"] "other", previousStep (JError "lost"));
                (host [] "nowhere", nextStep JNull)] in
  Forall (fun ha => forall keys, snd ha <> reset keys) trace /\
  (fun step => (key step, nextButtonIntlKey step)) <$> steps (runs (started h) trace)
  = [("profile", "Next"); ("payment", "Next"); ("confirm", "Finish")].
Proof.
  intros h trace.
  assert (Htrace : Forall (fun ha => forall keys, snd ha <> reset keys) trace)
    by (repeat apply Forall_cons_2; try apply Forall_nil_2; intros keys; discriminate).
  split; [exact Htrace|].
  exact (registry_shape_kept (started h) trace Htrace).
Defined.
